(** * Multilingual-Voice-QA: the answer extractor of [core/qa_pipeline.py]

    A shallow embedding of [get_answer] and of the Python primitives it is
    written with ([range], slicing, truthiness, [max] with a key, dict item
    assignment), followed by the properties of the chunking loop, of the
    per-chunk scoring loop and of the final selection.

    The question-answering pipeline, the generative model and its tokenizer
    are external: they are parameters of the embedding.  The pipeline is a
    callable with a state of its own that returns references to result dicts
    or raises; the dicts live in a store, because [get_answer] writes the
    window text into them in place. *)

From Stdlib Require Import Ascii String QArith.
From stdpp Require Import gmap strings list pretty.

Open Scope nat_scope.

(** ** Python values and primitives *)

(** A Python [str] is a sequence of characters; [len] and slicing count
    characters.  One [ascii] stands for one character: the code only measures
    and slices the text, it never looks at what a character is. *)
Abbreviation pystr := string.

(** What [pdf_text] can be at run time: [None] (what [extract_text_from_pdf]
    returns on failure), a [str], or any other object, of which only its truth
    value and its [str()] rendering are ever used. *)
Inductive pyval :=
  | PyNone
  | PyStr (s : pystr)
  | PyObj (truth : bool) (rendering : pystr).

(** [bool(v)]: [None] and the empty string are false. *)
Definition py_truthy (v : pyval) : bool :=
  match v with
  | PyNone => false
  | PyStr s => negb (String.length s =? 0)
  | PyObj b _ => b
  end.

(** [isinstance(v, str)] *)
Definition isinstance_str (v : pyval) : bool :=
  match v with PyStr _ => true | _ => false end.

(** [str(v)], as an f-string renders a value. *)
Definition py_str (v : pyval) : pystr :=
  match v with
  | PyNone => "None"
  | PyStr s => s
  | PyObj _ r => r
  end.

(** [s[i:j]] for [0 <= i]: the characters at positions [i .. j-1], clipped to
    the end of [s]; empty when [i] is past the end. *)
Definition py_slice (s : pystr) (i j : nat) : pystr := String.substring i (j - i) s.

(** [range(start, stop, step)] for a positive [step]: [start], [start+step],
    ... as long as the value is below [stop].  The loop counter [fuel] bounds
    the number of iterations; [stop - start] of them are always enough. *)
Fixpoint range_loop (fuel i stop step : nat) : list nat :=
  match fuel with
  | 0 => []
  | S fuel' => if i <? stop then i :: range_loop fuel' (i + step) stop step else []
  end.

Definition py_range (start stop step : nat) : list nat :=
  range_loop (stop - start) start stop step.

(** ** The chunking step of [get_answer] (lines 80-86) *)

Definition max_chunk_len : nat := 512.
Definition overlap : nat := 100.

(** [chunks = []; if pdf_text and isinstance(pdf_text, str): for i in
    range(0, len(pdf_text), max_chunk_len - overlap):
    chunks.append(pdf_text[i:i + max_chunk_len])] *)
Definition make_chunks (pdf_text : pyval) : list pystr :=
  if py_truthy pdf_text && isinstance_str pdf_text then
    let text := py_str pdf_text in
    (λ i, py_slice text i (i + max_chunk_len))
      <$> py_range 0 (String.length text) (max_chunk_len - overlap)
  else [].

(** Rounded-up quotient, the closed form the window count is compared with. *)
Definition ceil_div (a b : nat) : nat := (a + b - 1) / b.

(** A text of [n] copies of one character, for concrete documents. *)
Fixpoint str_repeat (c : Ascii.ascii) (n : nat) : pystr :=
  match n with
  | 0 => EmptyString
  | S n' => String c (str_repeat c n')
  end.

(** [needle in hay] for two strings. *)
Definition str_contains (needle hay : pystr) : bool :=
  match String.index 0 needle hay with Some _ => true | None => false end.

(** Truth value of a [str]: false exactly for the empty string. *)
Definition str_truthy (s : pystr) : bool := negb (String.length s =? 0).

(** Scores are Python floats that are only ever compared, never computed
    with.  A finite float is a rational and the comparison of finite floats is
    the comparison of rationals, so [Q] holds them exactly. *)
Definition Qgtb (a b : Q) : bool :=
  match (a ?= b)%Q with Gt => true | _ => false end.

(** [max(xs, key=key)]: the first item is the running maximum, and a later
    item replaces it only when its key is strictly greater ([>]), so among
    items with equal keys the first one met stays.  [None] stands for the
    [ValueError] on an empty sequence. *)
Definition py_max_by {A : Type} (key : A → Q) (xs : list A) : option A :=
  match xs with
  | [] => None
  | x :: rest =>
      Some (foldl (λ best item, if Qgtb (key item) (key best) then item else best) x rest)
  end.

(** A computation that returns or raises. *)
Inductive py_result (A : Type) :=
  | Ret (a : A)
  | Raise (exn : pystr).
Arguments Ret {A} a.
Arguments Raise {A} exn.

(** ** Result dicts and the object store *)

(** The dict of one candidate answer, with the keys the code reads or writes:
    ['answer'] ([None] when the key is absent or holds [None]: [.get] cannot
    tell them apart), ['score'], which every result of the pipeline has, and
    ['context'], absent until [get_answer] assigns it. *)
Record pydict := PyDict {
  d_answer : option pystr;
  d_score : Q;
  d_context : option pystr }.

(** [result['context'] = chunk] *)
Definition set_context (chunk : pystr) (d : pydict) : pydict :=
  {| d_answer := d_answer d; d_score := d_score d; d_context := Some chunk |}.

(** Python objects have identity: the pipeline hands back references, and
    the assignment above changes the object every holder of the reference
    sees.  The store maps the references that denote candidate dicts to their
    current contents; it holds every dict the pipeline hands out, so a
    pipeline that builds a new dict is one that hands out a reference it has
    not handed out before.  The results of a call are dicts or strings: a
    reference outside the store stands for a [str], which is what the loop
    over the results meets when the pipeline returns one answer dict instead
    of a list of dicts (iterating a dict yields its keys). *)
Abbreviation store := (gmap nat pydict).

(** The keyword arguments of one pipeline call. *)
Record qa_args := QaArgs {
  arg_question : pystr;
  arg_context : pystr;
  arg_top_k : nat;
  arg_handle_impossible_answer : bool }.

(** What one pipeline call does: return a list of result objects, or raise
    an [Exception] with message [e] (the [except Exception] of line 103
    catches these; it does not catch a [KeyboardInterrupt] or [SystemExit],
    which are not failures of the scorer). *)
Inductive outcome :=
  | Returned (results : list nat)
  | Raised (e : pystr).

(** The external calls and the printed lines, in program order. *)
Inductive event :=
  | EvScore (args : qa_args)
  | EvTokenize (input_text : pystr) (max_length : nat) (truncation : bool)
  | EvGenerate (inputs : list nat) (max_length num_beams : nat) (early_stopping : bool)
  | EvDecode (output : list nat)
  | EvPrint (line : pystr).

(** The answer dict [get_answer] returns. *)
Record answer_result := AnswerResult {
  ans_answer : pystr;
  ans_score : Q;
  ans_context : pystr }.

Definition empty_document_answer : answer_result :=
  {| ans_answer := "The document appears to be empty.";
     ans_score := 0; ans_context := "N/A" |}.

Definition no_confident_answer : answer_result :=
  {| ans_answer := "Sorry, I couldn't find a confident answer in the document.";
     ans_score := 0; ans_context := "N/A" |}.

(** The generative model and its tokenizer, as far as [get_answer] uses them:
    external callables, taken with the arguments the code passes; each call
    returns or raises.  [tok_encode text max_length truncation] is the call
    [tokenizer(text, return_tensors="pt", max_length=..., truncation=...)]
    followed by [.to(device)], [gen_generate inputs max_length num_beams
    early_stopping] is [model.generate] for these inputs followed by
    [outputs[0]], and [tok_decode] is [tokenizer.decode(...,
    skip_special_tokens=True)]. *)
Record gen_model := GenModel {
  name_or_path : pystr;
  gen_generate : list nat → nat → nat → bool → py_result (list nat) }.

Record tokenizer := Tokenizer {
  tok_encode : pystr → nat → bool → py_result (list nat);
  tok_decode : list nat → py_result pystr }.

Section Pipeline.
Context {St : Type}.

(** The extractive pipeline is a callable with a state of its own, [St]:
    called with the arguments of one chunk it moves to a new state and
    returns or raises. *)
Definition pipeline : Type := St → qa_args → St * outcome.

(** The dict [load_model_components] builds: the keys ["model"],
    ["tokenizer"] and ["pipeline"], each possibly [None]. *)
Record model_components := ModelComponents {
  mc_model : option gen_model;
  mc_tokenizer : option tokenizer;
  mc_pipeline : option pipeline }.

(** Everything [get_answer] can change: the pipeline's state, the store of
    result dicts, and the trace of external calls and printed lines. *)
Record world := World {
  scorer_st : St;
  heap : store;
  trace : list event }.

Definition emit (evs : list event) (w : world) : world :=
  {| scorer_st := scorer_st w; heap := heap w; trace := trace w ++ evs |}.

Definition set_heap (h : store) (w : world) : world :=
  {| scorer_st := scorer_st w; heap := h; trace := trace w |}.

(** [with st.spinner(label): body]: a progress indicator shown while [body]
    runs and removed when it ends; it leaves nothing behind. *)
Definition st_spinner {A : Type} (label : pystr) (body : A) : A := body.

(** The test of line 59, [model_components.get("model") and "t5" in
    model_components["model"].name_or_path], as a predicate of its own. *)
Definition is_generative (mc : model_components) : bool :=
  match mc_model mc with
  | Some model => str_contains "t5" (name_or_path model)
  | None => false
  end.

(** Lines 60-75.  None of the three calls is inside a [try]: what one of
    them raises leaves [get_answer], after the calls before it were made. *)
Definition generative_answer (model : gen_model) (tok : option tokenizer)
    (question : pystr) (pdf_text : pyval) (w : world) : py_result answer_result * world :=
  match tok with
  | None => (Raise "TypeError: 'NoneType' object is not callable", w)
  | Some tokenizer =>
      let input_text := "question: " +:+ question +:+ " context: " +:+ py_str pdf_text in
      match tok_encode tokenizer input_text 1024 true with
      | Raise e => (Raise e, emit [EvTokenize input_text 1024 true] w)
      | Ret inputs =>
          st_spinner "Generating answer with FLAN-T5..."
            match gen_generate model inputs 200 4 true with
            | Raise e =>
                (Raise e,
                 emit [EvTokenize input_text 1024 true; EvGenerate inputs 200 4 true] w)
            | Ret outputs0 =>
                match tok_decode tokenizer outputs0 with
                | Raise e =>
                    (Raise e,
                     emit [EvTokenize input_text 1024 true; EvGenerate inputs 200 4 true;
                           EvDecode outputs0] w)
                | Ret answer =>
                    (Ret {| ans_answer := if str_truthy answer then answer
                                          else "FLAN-T5 could not generate an answer.";
                            ans_score := 1;
                            ans_context := "Answer was generated, not extracted. The model used the full document as context." |},
                     emit [EvTokenize input_text 1024 true; EvGenerate inputs 200 4 true;
                           EvDecode outputs0] w)
                end
            end
      end
  end.

(** [qa_pipeline(question=question, context=chunk, top_k=3,
    handle_impossible_answer=True)]; calling [None] raises a [TypeError]. *)
Definition call_pipeline (qa_pipeline : option pipeline) (question chunk : pystr)
    (w : world) : outcome * world :=
  match qa_pipeline with
  | Some f =>
      let args := QaArgs question chunk 3 true in
      let '(st', out) := f (scorer_st w) args in
      (out, {| scorer_st := st'; heap := heap w; trace := trace w ++ [EvScore args] |})
  | None => (Raised "'NoneType' object is not callable", w)
  end.

(** [for result in results: result['context'] = chunk] (lines 99-100).  The
    assignment raises a [TypeError] at the first result that is not a dict,
    with the message Python gives for a [str]; the results before it keep
    their new context. *)
Fixpoint annotate (chunk : pystr) (results : list nat) (h : store) : option pystr * store :=
  match results with
  | [] => (None, h)
  | result :: rest =>
      match h !! result with
      | Some d => annotate chunk rest (<[result := set_context chunk d]> h)
      | None => (Some "'str' object does not support item assignment", h)
      end
  end.

(** [print(f"Error processing a chunk: {e}")] *)
Definition print_error (e : pystr) (w : world) : world :=
  emit [EvPrint ("Error processing a chunk: " +:+ e)] w.

(** The body of [for chunk in chunks] (lines 94-105): whatever is raised
    inside [try] is printed and the loop goes on; the results are appended to
    [all_candidates] only when the whole body ran. *)
Definition score_chunk (qa_pipeline : option pipeline) (question : pystr)
    (acc : list nat * world) (chunk : pystr) : list nat * world :=
  let '(all_candidates, w) := acc in
  let '(out, w1) := call_pipeline qa_pipeline question chunk w in
  match out with
  | Raised e => (all_candidates, print_error e w1)
  | Returned results =>
      match annotate chunk results (heap w1) with
      | (None, h) => (all_candidates ++ results, set_heap h w1)
      | (Some e, h) => (all_candidates, print_error e (set_heap h w1))
      end
  end.

(** Lines 91-105: the loop over all chunks, from an empty [all_candidates]. *)
Definition score_chunks (qa_pipeline : option pipeline) (question : pystr)
    (chunks : list pystr) (w : world) : list nat * world :=
  foldl (score_chunk qa_pipeline question) ([], w) chunks.

(** The truth value of [cand.get('answer')]: false when the key is absent,
    or holds [None] or the empty string. *)
Definition answer_usable (d : pydict) : bool :=
  from_option str_truthy false (d_answer d).

(** [[cand for cand in all_candidates if cand.get('answer')]] (line 107).
    The loop is over; the list pairs each kept object with its contents. *)
Fixpoint valid_candidates_of (h : store) (all_candidates : list nat)
    : py_result (list (nat * pydict)) :=
  match all_candidates with
  | [] => Ret []
  | cand :: rest =>
      match h !! cand with
      | None => Raise "AttributeError: 'str' object has no attribute 'get'"
      | Some d =>
          match valid_candidates_of h rest with
          | Raise e => Raise e
          | Ret kept =>
              Ret (if answer_usable d then (cand, d) :: kept else kept)
          end
      end
  end.

(** Lines 107-118. *)
Definition select_best (h : store) (all_candidates : list nat) : py_result answer_result :=
  match valid_candidates_of h all_candidates with
  | Raise e => Raise e
  | Ret valid_candidates =>
      match valid_candidates with
      | [] => Ret no_confident_answer
      | _ :: _ =>
          match py_max_by (λ x, d_score x.2) valid_candidates with
          | None => Raise "ValueError: max() arg is an empty sequence"
          | Some best_answer =>
              match d_answer best_answer.2, d_context best_answer.2 with
              | Some a, Some c =>
                  Ret {| ans_answer := a; ans_score := d_score best_answer.2;
                         ans_context := c |}
              | None, _ => Raise "KeyError: 'answer'"
              | _, None => Raise "KeyError: 'context'"
              end
          end
      end
  end.

(** Lines 78-118. *)
Definition extractive_answer (qa_pipeline : option pipeline) (question : pystr)
    (pdf_text : pyval) (w : world) : py_result answer_result * world :=
  let chunks := make_chunks pdf_text in
  match chunks with
  | [] => (Ret empty_document_answer, w)
  | _ :: _ =>
      let '(all_candidates, w') :=
        st_spinner ("Searching for top answers in " +:+ pretty (length chunks)
                    +:+ " document chunks...")
          (score_chunks qa_pipeline question chunks w) in
      (select_best (heap w') all_candidates, w')
  end.

(** [get_answer(model_components, question, pdf_text)] *)
Definition get_answer (mc : model_components) (question : pystr) (pdf_text : pyval)
    (w : world) : py_result answer_result * world :=
  match mc_model mc with
  | Some model =>
      if str_contains "t5" (name_or_path model)
      then generative_answer model (mc_tokenizer mc) question pdf_text w
      else extractive_answer (mc_pipeline mc) question pdf_text w
  | None => extractive_answer (mc_pipeline mc) question pdf_text w
  end.

End Pipeline.

Arguments pipeline : clear implicits.
Arguments model_components : clear implicits.
Arguments world : clear implicits.

(** ** Vocabulary for statements about a run of the scoring loop *)

(** The reference denotes a dict. *)
Definition is_dict (h : store) (r : nat) : bool := bool_decide (is_Some (h !! r)).

(** The objects a call handed back. *)
Definition returned_refs (out : outcome) : list nat :=
  match out with Returned results => results | Raised _ => [] end.

(** A window succeeds when its call returned and every result is a dict;
    it then contributes all its results to [all_candidates]. *)
Definition succeeded (h : store) (out : outcome) : bool :=
  match out with Returned results => forallb (is_dict h) results | Raised _ => false end.

Definition contributed (h : store) (out : outcome) : list nat :=
  if succeeded h out then returned_refs out else [].

(** The message of the exception a window ends with, if it does. *)
Definition failure_message (h : store) (chunk : pystr) (out : outcome) : option pystr :=
  match out with
  | Raised e => Some e
  | Returned results => (annotate chunk results h).1
  end.

(** The annotation of [results] assigns to [r]: it is one of the results
    before the first that is not a dict. *)
Fixpoint annotate_touches (h : store) (results : list nat) (r : nat) : bool :=
  match results with
  | [] => false
  | x :: rest => is_dict h x && (bool_decide (x = r) || annotate_touches h rest r)
  end.

(** The dicts one window contributes, with the chunk as their context. *)
Definition window_dicts (h : store) (chunk : pystr) (out : outcome) : list (option pydict) :=
  (λ r, set_context chunk <$> h !! r) <$> contributed h out.

(** The lines printed for the windows that fail, in order. *)
Definition failure_lines (h : store) (chunks : list pystr) (outs : list outcome)
    : list pystr :=
  omap (λ co, (λ e, "Error processing a chunk: " +:+ e) <$> failure_message h co.1 co.2)
       (zip chunks outs).

(** The answer and score of a candidate, the part of a result dict the
    pipeline decides. *)
Definition cand_value (d : pydict) : option pystr * Q := (d_answer d, d_score d).

(** What the filter of line 107 keeps of one pooled object. *)
Definition keep_valid (h : store) (cand : nat) : option (nat * pydict) :=
  match h !! cand with
  | Some d => if answer_usable d then Some (cand, d) else None
  | None => None
  end.

(** [best] is the first item of [xs] with the greatest key, at position [i]. *)
Definition first_max {A : Type} (key : A → Q) (xs : list A) (i : nat) (best : A) : Prop :=
  xs !! i = Some best
  ∧ (∀ j x, xs !! j = Some x → (key x <= key best)%Q)
  ∧ (∀ j x, j < i → xs !! j = Some x → (key x < key best)%Q).

(** The arguments of the events of a trace that are pipeline calls, and its
    printed lines. *)
Definition score_calls (evs : list event) : list qa_args :=
  omap (λ ev, match ev with EvScore args => Some args | _ => None end) evs.

Definition printed_lines (evs : list event) : list pystr :=
  omap (λ ev, match ev with EvPrint line => Some line | _ => None end) evs.




(** The prompt of line 64. *)
Definition prompt_of (question : pystr) (pdf_text : pyval) : pystr :=
  "question: " +:+ question +:+ " context: " +:+ py_str pdf_text.

Section Runs.
Context {St : Type}.

(** What the call for one chunk yields from pipeline state [st]. *)
Definition call_outcome (qa_pipeline : option (pipeline St)) (question chunk : pystr)
    (st : St) : St * outcome :=
  match qa_pipeline with
  | Some f => f st (QaArgs question chunk 3 true)
  | None => (st, Raised "'NoneType' object is not callable")
  end.

(** The events of one window: the call, when there is a pipeline to call,
    and the printed line when the window fails. *)
Definition window_events (qa_pipeline : option (pipeline St)) (question : pystr)
    (h : store) (chunk : pystr) (out : outcome) : list event :=
  match qa_pipeline with
  | Some _ => [EvScore (QaArgs question chunk 3 true)]
  | None => []
  end
  ++ match failure_message h chunk out with
     | Some e => [EvPrint ("Error processing a chunk: " +:+ e)]
     | None => []
     end.

(** The outcomes of the calls for [chunks], in order, starting in [st]. *)
Fixpoint run_outcomes (qa_pipeline : option (pipeline St)) (question : pystr)
    (st : St) (chunks : list pystr) : list outcome :=
  match chunks with
  | [] => []
  | chunk :: rest =>
      (call_outcome qa_pipeline question chunk st).2
      :: run_outcomes qa_pipeline question
           (call_outcome qa_pipeline question chunk st).1 rest
  end.

(** The pipeline state after these calls. *)
Fixpoint run_state (qa_pipeline : option (pipeline St)) (question : pystr)
    (st : St) (chunks : list pystr) : St :=
  match chunks with
  | [] => st
  | chunk :: rest =>
      run_state qa_pipeline question (call_outcome qa_pipeline question chunk st).1 rest
  end.

(** The store after the results of these calls were annotated. *)
Fixpoint run_heap (qa_pipeline : option (pipeline St)) (question : pystr)
    (st : St) (h : store) (chunks : list pystr) : store :=
  match chunks with
  | [] => h
  | chunk :: rest =>
      run_heap qa_pipeline question (call_outcome qa_pipeline question chunk st).1
        (annotate chunk
           (returned_refs (call_outcome qa_pipeline question chunk st).2) h).2
        rest
  end.

(** The events of these windows. *)
Fixpoint run_events (qa_pipeline : option (pipeline St)) (question : pystr)
    (st : St) (h : store) (chunks : list pystr) : list event :=
  match chunks with
  | [] => []
  | chunk :: rest =>
      window_events qa_pipeline question h chunk
        (call_outcome qa_pipeline question chunk st).2
      ++ run_events qa_pipeline question (call_outcome qa_pipeline question chunk st).1
           (annotate chunk
              (returned_refs (call_outcome qa_pipeline question chunk st).2) h).2
           rest
  end.

(** The dicts the windows contribute, each with the chunk of its window as
    context, read off the store [h] the run starts in. *)
Fixpoint run_dicts (qa_pipeline : option (pipeline St)) (question : pystr)
    (st : St) (h : store) (chunks : list pystr) : list (option pydict) :=
  match chunks with
  | [] => []
  | chunk :: rest =>
      window_dicts h chunk (call_outcome qa_pipeline question chunk st).2
      ++ run_dicts qa_pipeline question
           (call_outcome qa_pipeline question chunk st).1 h rest
  end.

(** The chunk of the last window of the run whose annotation assigns to
    [r], if there is one. *)
Fixpoint run_touch (qa_pipeline : option (pipeline St)) (question : pystr)
    (st : St) (h : store) (chunks : list pystr) (r : nat) : option pystr :=
  match chunks with
  | [] => None
  | chunk :: rest =>
      match run_touch qa_pipeline question
              (call_outcome qa_pipeline question chunk st).1 h rest r with
      | Some c => Some c
      | None =>
          if annotate_touches h
               (returned_refs (call_outcome qa_pipeline question chunk st).2) r
          then Some chunk else None
      end
  end.

(** The outcome of a call, objects included, depends on the arguments only:
    the scorer is a function of the question and the context. *)
Definition repeatable (qa_pipeline : option (pipeline St)) : Prop :=
  ∀ question chunk st1 st2,
    (call_outcome qa_pipeline question chunk st1).2
    = (call_outcome qa_pipeline question chunk st2).2.

(** No object is handed back twice during the run: the pipeline builds the
    dicts of each call afresh. *)
Definition alias_free (qa_pipeline : option (pipeline St)) (question : pystr)
    (st : St) (chunks : list pystr) : Prop :=
  NoDup (concat (returned_refs <$> run_outcomes qa_pipeline question st chunks)).

(** The values a call returns, read in store [h]: [None] when the window
    fails, else the answer and score of each result. *)
Definition outcome_values (h : store) (out : outcome) : option (list (option pystr * Q)) :=
  if succeeded h out
  then Some (omap (λ r, cand_value <$> h !! r) (returned_refs out))
  else None.

(** A deterministic scorer: the values it returns for given arguments do not
    depend on its state. *)
Definition deterministic (h : store) (qa_pipeline : option (pipeline St)) : Prop :=
  ∀ question chunk st1 st2,
    outcome_values h (call_outcome qa_pipeline question chunk st1).2
    = outcome_values h (call_outcome qa_pipeline question chunk st2).2.

End Runs.

(** ** Concrete pipelines and documents *)

(** A pipeline that replays a script: its state counts the calls made so far,
    and call number [n] gets the [n]-th outcome of the script (an empty list
    of results once the script is used up). *)
Definition scripted (script : list outcome) : pipeline nat :=
  λ n _, (S n, default (Returned []) (script !! n)).

(** The components [load_model_components] builds around an extractive
    pipeline. *)
Definition extractive_components {St : Type} (f : pipeline St) : model_components St :=
  {| mc_model := None; mc_tokenizer := None; mc_pipeline := Some f |}.

(** A document of 1000 characters with three windows of different texts:
    412 times [a], 412 times [b], 176 times [c]. *)
Definition doc_abc : pystr :=
  str_repeat "a"%char 412 +:+ str_repeat "b"%char 412 +:+ str_repeat "c"%char 176.

Definition abc_window_0 : pystr := str_repeat "a"%char 412 +:+ str_repeat "b"%char 100.
Definition abc_window_1 : pystr := str_repeat "b"%char 412 +:+ str_repeat "c"%char 100.
Definition abc_window_2 : pystr := str_repeat "c"%char 176.

(** Three candidates with scores 0.2, 0.9 and 0.5, as three objects. *)
Definition moon_store : store :=
  <[0 := PyDict (Some "Luna") (2 # 10) None]>
    (<[1 := PyDict (Some "the Moon") (9 # 10) None]>
       (<[2 := PyDict (Some "Selene") (5 # 10) None]> ∅)).

(** A candidate without answer text and with the greatest score, 0.99. *)
Definition blank_store : store := <[3 := PyDict (Some "") (99 # 100) None]> moon_store.

Definition start_world (h : store) : world nat :=
  {| scorer_st := 0; heap := h; trace := [] |}.

(** One candidate per window, with scores 0.2, 0.9 and 0.5. *)
Definition moon_components : model_components nat :=
  extractive_components (scripted [Returned [0]; Returned [1]; Returned [2]]).

Definition moon_question : pystr := "What orbits the Earth?".

(** The pipeline finds nothing: an empty list for the first two windows, a
    candidate without text for the third. *)
Definition silent_components : model_components nat :=
  extractive_components (scripted [Returned []; Returned []; Returned [3]]).

(** The call for the second window raises. *)
Definition flaky_components : model_components nat :=
  extractive_components
    (scripted [Returned [0]; Raised "CUDA out of memory"; Returned [2]]).

(** A generative model with its tokenizer: one token per character of the
    input (the code of the character), cut at [max_length] when asked to
    truncate; the model hands its input back cut to [max_length] tokens, and
    decoding turns the codes into characters again. *)
Definition char_codes (text : pystr) : list nat :=
  nat_of_ascii <$> list_ascii_of_string text.

Definition flan_t5 : gen_model :=
  {| name_or_path := "google/flan-t5-base";
     gen_generate := λ inputs max_length _ _, Ret (take max_length inputs) |}.

Definition flan_tokenizer : tokenizer :=
  {| tok_encode := λ text max_length truncation,
       Ret (if truncation then take max_length (char_codes text) else char_codes text);
     tok_decode := λ output, Ret (string_of_list_ascii (ascii_of_nat <$> output)) |}.

Definition flan_components : model_components nat :=
  {| mc_model := Some flan_t5; mc_tokenizer := Some flan_tokenizer; mc_pipeline := None |}.

(** A pipeline that answers by the length of the context alone and builds
    its result afresh: it cycles through three objects per answer. *)
Definition rotating : pipeline nat :=
  λ n args,
    (S n, if String.length (arg_context args) =? 512
          then Returned [10 + n mod 3] else Returned [20 + n mod 3]).

Definition rotating_store : store :=
  list_to_map
    [(10, PyDict (Some "the Moon") (9 # 10) None);
     (11, PyDict (Some "the Moon") (9 # 10) None);
     (12, PyDict (Some "the Moon") (9 # 10) None);
     (20, PyDict (Some "Selene") (5 # 10) None);
     (21, PyDict (Some "Selene") (5 # 10) None);
     (22, PyDict (Some "Selene") (5 # 10) None)].

(** A pipeline that builds one dict for its first call and hands the same
    second dict back for every later call; the dicts it uses are the first
    two of [rotating_store], which hold the same answer and score. *)
Definition recycling : pipeline nat :=
  λ n _, (S n, Returned [if n =? 0 then 10 else 11]).



(** A pipeline that hands back one and the same object for every call. *)
Definition constant_pipeline : pipeline nat := λ n _, (S n, Returned [10]).

(** A document of 512 characters: a window of 512 and one of 100. *)
Definition doc_512 : pystr := str_repeat "a"%char 512.

(** A pipeline that hands the same object back for two windows. *)
Definition sharing_components : model_components nat :=
  extractive_components (scripted [Returned [1]; Returned [1]; Returned []]).

(** Two candidates with the same greatest score, in the first and in the
    third window. *)
Definition tie_store : store :=
  <[0 := PyDict (Some "Luna") (9 # 10) None]>
    (<[1 := PyDict (Some "the Moon") (5 # 10) None]>
       (<[2 := PyDict (Some "Selene") (9 # 10) None]> ∅)).

(** The first window's results hold a [str] next to a dict. *)
Definition odd_components : model_components nat :=
  extractive_components (scripted [Returned [1; 7]; Returned [0]; Returned []]).

(** The candidate without text, with the greatest score, comes first. *)
Definition blank_components : model_components nat :=
  extractive_components (scripted [Returned [3; 0]; Returned [1]; Returned [2]]).

(** ** The rest of [core/qa_pipeline.py]

    The Streamlit calls that only draw ([st.info], [st.success], [st.error],
    [st.warning] and the layout widgets) are left out throughout: they return
    nothing the code reads and keep no state. *)

(** ["\n"] *)
Definition newline : pystr := String "010"%char EmptyString.

(** What [page.extract_text()] does for one page: return a text or [None],
    or raise. *)
Abbreviation pdf_page := (py_result (option pystr)).

(** What [pdfplumber.open(pdf_file)] does: raise, or give the pages. *)
Abbreviation pdf_file := (py_result (list pdf_page)).

(** The loop of lines 44-47, from the text collected so far:
    [page_text = page.extract_text(); if page_text: text += page_text + "\n"].
    An exception leaves the loop at once. *)
Fixpoint extract_pages (pages : list pdf_page) (text : pystr) : py_result pystr :=
  match pages with
  | [] => Ret text
  | page :: rest =>
      match page with
      | Raise e => Raise e
      | Ret page_text =>
          extract_pages rest
            (match page_text with
             | Some t => if str_truthy t then text +:+ (t +:+ newline) else text
             | None => text
             end)
      end
  end.

(** [extract_text_from_pdf(pdf_file)] (lines 39-51): the text, or [None]
    after any exception. *)
Definition extract_text_from_pdf (pdf : pdf_file) : pyval :=
  match pdf with
  | Raise _ => PyNone
  | Ret pages =>
      match extract_pages pages "" with
      | Ret text => PyStr text
      | Raise _ => PyNone
      end
  end.

(** The texts of the pages that have one, in page order. *)
Definition page_texts (pages : list pdf_page) : list pystr :=
  omap (λ page, match page with
                | Ret (Some t) => if str_truthy t then Some t else None
                | _ => None
                end) pages.

(** Each text followed by a newline, all joined. *)
Definition join_lines (texts : list pystr) : pystr :=
  foldr (λ t acc, (t +:+ newline) +:+ acc) "" texts.

(** The page does not raise. *)
Definition page_ok (page : pdf_page) : bool :=
  match page with Ret _ => true | Raise _ => false end.

Section Loader.
Context {St : Type}.

(** The loaders of the transformers library: each returns what it loaded or
    raises.  [from_pretrained_model name device] is
    [AutoModelForSeq2SeqLM.from_pretrained(name).to(device)],
    [make_qa_pipeline model tokenizer device] is [pipeline("question-answering",
    model=..., tokenizer=..., device=...)]. *)
Variable from_pretrained_tokenizer : pystr → py_result tokenizer.
Variable from_pretrained_model : pystr → pystr → py_result gen_model.
Variable make_qa_pipeline : pystr → pystr → pystr → py_result (pipeline St).

(** [load_model_components(model_name, tokenizer_name=None)] (lines 8-36);
    [cuda_available] is [torch.cuda.is_available()].  The decorator
    [st.cache_resource] only saves running the body again for the same
    arguments. *)
Definition load_model_components (cuda_available : bool) (model_name : pystr)
    (tokenizer_name : option pystr) : py_result (model_components St) :=
  let tokenizer_name := default model_name tokenizer_name in
  let device := if cuda_available then "cuda" else "cpu" in
  if str_contains "flan-t5" model_name then
    match from_pretrained_tokenizer model_name with
    | Raise e => Raise e
    | Ret tokenizer =>
        match from_pretrained_model model_name device with
        | Raise e => Raise e
        | Ret model =>
            Ret {| mc_model := Some model; mc_tokenizer := Some tokenizer;
                   mc_pipeline := None |}
        end
    end
  else
    match make_qa_pipeline model_name tokenizer_name device with
    | Raise e => Raise e
    | Ret qa_pipeline =>
        Ret {| mc_model := None; mc_tokenizer := None; mc_pipeline := Some qa_pipeline |}
    end.

End Loader.

(** ** [core/voice_handler.py] *)

(** [s.split(sep)[0]]: the characters of [s] before the first [sep]. *)
Fixpoint split_head (sep : Ascii.ascii) (s : pystr) : pystr :=
  match s with
  | EmptyString => EmptyString
  | String c rest =>
      if Ascii.eqb c sep then EmptyString else String c (split_head sep rest)
  end.

(** What capturing the audio does (lines 22-27): [sr.Microphone()] or
    [r.listen] raise, or there is an audio clip. *)
Inductive capture (A : Type) :=
  | CaptureRaised (e : pystr)
  | Captured (audio : A).
Arguments CaptureRaised {A} e.
Arguments Captured {A} audio.

(** What [r.recognize_whisper] does: return the text, or raise one of the two
    exceptions the code handles, or another one. *)
Inductive recognition :=
  | Recognized (text : pystr)
  | UnknownValueError
  | RequestError (e : pystr)
  | OtherError (e : pystr).

(** [int(x)] for a float: truncation toward zero. *)
Definition py_int (x : Q) : Z := Z.quot (Qnum x) (Zpos (Qden x)).

(** [f"assets/temp_audio/response_{lang_code}_{timestamp}.mp3"] *)
Definition audio_file_name (lang_code : pystr) (timestamp : Z) : pystr :=
  "assets/temp_audio/response_" +:+ lang_code +:+ "_" +:+ pretty timestamp +:+ ".mp3".

Section Voice.
Context {A : Type}.

(** [recognize_whisper audio language] is [r.recognize_whisper(audio,
    language=...)]; [gtts_save text lang path] is [gTTS(text=text, lang=lang,
    slow=False)] followed by [tts.save(path)]: [None] when both went through,
    else the message of the exception. *)
Variable recognize_whisper : A → pystr → recognition.
Variable gtts_save : pystr → pystr → pystr → option pystr.

(** [listen_and_transcribe(lang)] (lines 11-40): the capture is outside
    [try]; of the recognizer's exceptions only [UnknownValueError] and
    [RequestError] are handled, with [None] as the result. *)
Definition listen_and_transcribe (heard : capture A) (lang : pystr)
    : py_result (option pystr) :=
  match heard with
  | CaptureRaised e => Raise e
  | Captured audio =>
      match recognize_whisper audio (split_head "-"%char lang) with
      | Recognized text => Ret (Some text)
      | UnknownValueError => Ret None
      | RequestError _ => Ret None
      | OtherError e => Raise e
      end
  end.

(** [text_to_speech(text, lang_code)] (lines 42-61); [now] is what
    [time.time()] returns.  Every exception is handled, with [None] as the
    result. *)
Definition text_to_speech (now : Q) (text lang_code : pystr) : option pystr :=
  let timestamp := py_int now in
  let audio_file := audio_file_name lang_code timestamp in
  match gtts_save text lang_code audio_file with
  | None => Some audio_file
  | Some _ => None
  end.

End Voice.

(** ** [app.py] *)

(** The keys of [MODEL_CONFIG], which are the options of the language
    [selectbox]. *)
Inductive language := English | Sanskrit | Japanese.

Record language_config := LanguageConfig {
  model_name : pystr;
  lang_code : pystr;
  stt_lang : pystr }.

Definition MODEL_CONFIG (l : language) : language_config :=
  match l with
  | English => {| model_name := "google/flan-t5-base"; lang_code := "en";
                  stt_lang := "en-US" |}
  | Sanskrit => {| model_name := "google/muril-base-cased"; lang_code := "sa";
                   stt_lang := "sa-IN" |}
  | Japanese => {| model_name := "cl-tohoku/bert-base-japanese-whole-word-masking";
                   lang_code := "ja"; stt_lang := "ja-JP" |}
  end.

Definition DEFAULT_PDF_PATHS (l : language) : pystr :=
  match l with
  | English => "assets/pdfs/moon_en.pdf"
  | Sanskrit => "assets/pdfs/moon_sa.pdf"
  | Japanese => "assets/pdfs/moon_ja.pdf"
  end.

(** [st.session_state], with the three keys the script keeps. *)
Record session := Session {
  answer_data : option answer_result;
  ss_question : pystr;
  ui_state : pystr }.

(** Lines 30-35, on a fresh session. *)
Definition initial_session : session :=
  {| answer_data := None; ss_question := ""; ui_state := "idle" |}.

(** How a pass of the script ends: [st.rerun()] stops it and asks for the
    next pass, it runs to its last line, or an exception stops it. *)
Inductive pass_end :=
  | Rerun
  | Completed
  | Crashed (e : pystr).

(** What this pass reads from the widgets and the machine: the language
    [selectbox], the PDF checkbox and uploader, the files on disk (by path:
    the file when it exists), the text input, the three buttons, the
    microphone, the clock and the GPU test. *)
Record pass_input (A : Type) := PassInput {
  selected_language : language;
  use_default_pdf : bool;
  uploaded_file : option pdf_file;
  files : pystr → option pdf_file;
  text_q : pystr;
  submit_clicked : bool;
  record_clicked : bool;
  again_clicked : bool;
  heard : capture A;
  now : Q;
  cuda_available : bool }.
Arguments selected_language {A} _.
Arguments use_default_pdf {A} _.
Arguments uploaded_file {A} _.
Arguments files {A} _.
Arguments text_q {A} _.
Arguments submit_clicked {A} _.
Arguments record_clicked {A} _.
Arguments again_clicked {A} _.
Arguments heard {A} _.
Arguments now {A} _.
Arguments cuda_available {A} _.

Section App.
Context {St A : Type}.
Variable from_pretrained_tokenizer : pystr → py_result tokenizer.
Variable from_pretrained_model : pystr → pystr → py_result gen_model.
Variable make_qa_pipeline : pystr → pystr → pystr → py_result (pipeline St).
Variable recognize_whisper : A → pystr → recognition.
Variable gtts_save : pystr → pystr → pystr → option pystr.

(** A block of the script hands on the session and the world, or stops the
    pass. *)
Inductive flow :=
  | Go (ss : session) (w : world St)
  | Halt (ending : pass_end) (ss : session) (w : world St).

(** [process_question(model_comps, question_text, doc_text)] (lines 52-56):
    the question is stored before [get_answer] runs, the answer and the state
    ["done"] after it returned. *)
Definition process_question (model_comps : model_components St)
    (question_text : pystr) (doc_text : pyval) (ss : session) (w : world St)
    : py_result unit * session * world St :=
  let ss1 := {| answer_data := answer_data ss; ss_question := question_text;
                ui_state := ui_state ss |} in
  match get_answer model_comps question_text doc_text w with
  | (Ret answer, w') =>
      (Ret tt, {| answer_data := Some answer; ss_question := question_text;
                  ui_state := "done" |}, w')
  | (Raise e, w') => (Raise e, ss1, w')
  end.

(** Lines 61-71: [pdf_text], from the default file of the language or from
    the uploaded file. *)
Definition load_pdf_text (inp : pass_input A) : pyval :=
  if use_default_pdf inp then
    match files inp (DEFAULT_PDF_PATHS (selected_language inp)) with
    | Some f => extract_text_from_pdf f
    | None => PyNone
    end
  else
    match uploaded_file inp with
    | Some f => extract_text_from_pdf f
    | None => PyNone
    end.

(** [process_question(...)] followed by [st.rerun()]. *)
Definition ask (model_comps : model_components St) (question_text : pystr)
    (pdf_text : pyval) (ss : session) (w : world St) : flow :=
  match process_question model_comps question_text pdf_text ss w with
  | (Ret _, ss', w') => Halt Rerun ss' w'
  | (Raise e, ss', w') => Halt (Crashed e) ss' w'
  end.

(** Lines 80-93, [if st.session_state.ui_state == "idle":]. *)
Definition idle_block (inp : pass_input A) (model_comps : model_components St)
    (pdf_text : pyval) (ss : session) (w : world St) : flow :=
  if String.eqb (ui_state ss) "idle" then
    let text_question := text_q inp in
    match (if submit_clicked inp then
             if str_truthy text_question
             then ask model_comps text_question pdf_text ss w
             else Go ss w
           else Go ss w) with
    | Halt ending ss' w' => Halt ending ss' w'
    | Go ss w =>
        if record_clicked inp then
          Halt Rerun {| answer_data := answer_data ss; ss_question := ss_question ss;
                        ui_state := "recording" |} w
        else Go ss w
    end
  else Go ss w.

(** Lines 95-102, [if st.session_state.ui_state == "recording":]. *)
Definition recording_block (inp : pass_input A) (model_comps : model_components St)
    (pdf_text : pyval) (ss : session) (w : world St) : flow :=
  if String.eqb (ui_state ss) "recording" then
    let stt_lang_code := stt_lang (MODEL_CONFIG (selected_language inp)) in
    match listen_and_transcribe recognize_whisper (heard inp) stt_lang_code with
    | Raise e => Halt (Crashed e) ss w
    | Ret transcribed_question =>
        match transcribed_question with
        | Some text =>
            if str_truthy text then ask model_comps text pdf_text ss w
            else Halt Rerun {| answer_data := answer_data ss;
                               ss_question := ss_question ss; ui_state := "idle" |} w
        | None =>
            Halt Rerun {| answer_data := answer_data ss;
                          ss_question := ss_question ss; ui_state := "idle" |} w
        end
    end
  else Go ss w.

(** Lines 104-161, [if st.session_state.ui_state == "done":]: the answer is
    read with [ans_data['answer']], spoken, and the session is reset when the
    last button was clicked.  The block also tells which audio file it
    plays. *)
Definition done_block (inp : pass_input A) (ss : session) (w : world St)
    : flow * option pystr :=
  if String.eqb (ui_state ss) "done" then
    match answer_data ss with
    | None => (Halt (Crashed "TypeError: 'NoneType' object is not subscriptable") ss w, None)
    | Some ans_data =>
        let tts_lang_code := lang_code (MODEL_CONFIG (selected_language inp)) in
        let audio_file_path :=
          text_to_speech gtts_save (now inp) (ans_answer ans_data) tts_lang_code in
        if again_clicked inp then
          (Halt Rerun {| answer_data := None; ss_question := ""; ui_state := "idle" |} w,
           audio_file_path)
        else (Go ss w, audio_file_path)
    end
  else (Go ss w, None).

(** What a pass leaves: how it ended, the session, the world, and the audio
    file it played. *)
Record pass_result := PassResult {
  ending : pass_end;
  session_after : session;
  world_after : world St;
  audio_played : option pystr }.

(** Lines 73-164, the main interaction area: the three blocks in turn when
    [pdf_text] is true, a warning otherwise. *)
Definition interaction (inp : pass_input A) (model_comps : model_components St)
    (pdf_text : pyval) (ss : session) (w : world St) : pass_result :=
  if py_truthy pdf_text then
    match idle_block inp model_comps pdf_text ss w with
    | Halt e ss1 w1 => PassResult e ss1 w1 None
    | Go ss1 w1 =>
        match recording_block inp model_comps pdf_text ss1 w1 with
        | Halt e ss2 w2 => PassResult e ss2 w2 None
        | Go ss2 w2 =>
            match done_block inp ss2 w2 with
            | (Halt e ss3 w3, audio) => PassResult e ss3 w3 audio
            | (Go ss3 w3, audio) => PassResult Completed ss3 w3 audio
            end
        end
    end
  else PassResult Completed ss w None.

(** One pass of the script: the model of the selected language is loaded
    (line 59), the text of the PDF is read, and the interaction area runs. *)
Definition app_pass (inp : pass_input A) (ss : session) (w : world St) : pass_result :=
  match load_model_components from_pretrained_tokenizer from_pretrained_model
          make_qa_pipeline (cuda_available inp)
          (model_name (MODEL_CONFIG (selected_language inp))) None with
  | Raise e => PassResult (Crashed e) ss w None
  | Ret model_comps => interaction inp model_comps (load_pdf_text inp) ss w
  end.

(** The passes for a list of inputs, one after the other; the session and
    the world outlive a pass however it ended. *)
Definition app_run (inps : list (pass_input A)) (ss : session) (w : world St)
    : session * world St :=
  foldl (λ sw inp, let r := app_pass inp sw.1 sw.2 in (session_after r, world_after r))
        (ss, w) inps.

(** The session is in one of the three states; it holds an answer exactly
    in state ["done"], and then the question is not empty. *)
Definition session_ok (ss : session) : Prop :=
  (ui_state ss = "idle" ∨ ui_state ss = "recording" ∨ ui_state ss = "done")
  ∧ (ui_state ss = "done" ↔ is_Some (answer_data ss))
  ∧ (ui_state ss = "done" → ss_question ss ≠ "").

(** The ways a pass can go.  The result is that of the first line that
    applies. *)
Inductive pass_case (inp : pass_input A) (ss : session) (w : world St) : pass_result → Prop :=
  | load_failed e :
      load_model_components from_pretrained_tokenizer from_pretrained_model
        make_qa_pipeline (cuda_available inp)
        (model_name (MODEL_CONFIG (selected_language inp))) None = Raise e →
      pass_case inp ss w (PassResult (Crashed e) ss w None)
  | no_text mc :
      load_model_components from_pretrained_tokenizer from_pretrained_model
        make_qa_pipeline (cuda_available inp)
        (model_name (MODEL_CONFIG (selected_language inp))) None = Ret mc → py_truthy (load_pdf_text inp) = false →
      pass_case inp ss w (PassResult Completed ss w None)
  | asked mc question answer w' :
      load_model_components from_pretrained_tokenizer from_pretrained_model
        make_qa_pipeline (cuda_available inp)
        (model_name (MODEL_CONFIG (selected_language inp))) None = Ret mc → py_truthy (load_pdf_text inp) = true →
      (ui_state ss = "idle" ∧ submit_clicked inp = true ∧ question = text_q inp
       ∨ ui_state ss = "recording" ∧ listen_and_transcribe recognize_whisper (heard inp)
           (stt_lang (MODEL_CONFIG (selected_language inp))) = Ret (Some question)) →
      str_truthy question = true →
      get_answer mc question (load_pdf_text inp) w = (Ret answer, w') →
      pass_case inp ss w
        (PassResult Rerun {| answer_data := Some answer; ss_question := question;
                             ui_state := "done" |} w' None)
  | asking_raised mc question e w' :
      load_model_components from_pretrained_tokenizer from_pretrained_model
        make_qa_pipeline (cuda_available inp)
        (model_name (MODEL_CONFIG (selected_language inp))) None = Ret mc → py_truthy (load_pdf_text inp) = true →
      (ui_state ss = "idle" ∧ submit_clicked inp = true ∧ question = text_q inp
       ∨ ui_state ss = "recording" ∧ listen_and_transcribe recognize_whisper (heard inp)
           (stt_lang (MODEL_CONFIG (selected_language inp))) = Ret (Some question)) →
      str_truthy question = true →
      get_answer mc question (load_pdf_text inp) w = (Raise e, w') →
      pass_case inp ss w
        (PassResult (Crashed e) {| answer_data := answer_data ss; ss_question := question;
                                   ui_state := ui_state ss |} w' None)
  | recording_started mc :
      load_model_components from_pretrained_tokenizer from_pretrained_model
        make_qa_pipeline (cuda_available inp)
        (model_name (MODEL_CONFIG (selected_language inp))) None = Ret mc → py_truthy (load_pdf_text inp) = true →
      ui_state ss = "idle" → record_clicked inp = true →
      pass_case inp ss w
        (PassResult Rerun {| answer_data := answer_data ss; ss_question := ss_question ss;
                             ui_state := "recording" |} w None)
  | idle_waiting mc :
      load_model_components from_pretrained_tokenizer from_pretrained_model
        make_qa_pipeline (cuda_available inp)
        (model_name (MODEL_CONFIG (selected_language inp))) None = Ret mc → py_truthy (load_pdf_text inp) = true →
      ui_state ss = "idle" → record_clicked inp = false →
      pass_case inp ss w (PassResult Completed ss w None)
  | listening_raised mc e :
      load_model_components from_pretrained_tokenizer from_pretrained_model
        make_qa_pipeline (cuda_available inp)
        (model_name (MODEL_CONFIG (selected_language inp))) None = Ret mc → py_truthy (load_pdf_text inp) = true →
      ui_state ss = "recording" → listen_and_transcribe recognize_whisper (heard inp)
           (stt_lang (MODEL_CONFIG (selected_language inp))) = Raise e →
      pass_case inp ss w (PassResult (Crashed e) ss w None)
  | nothing_heard mc :
      load_model_components from_pretrained_tokenizer from_pretrained_model
        make_qa_pipeline (cuda_available inp)
        (model_name (MODEL_CONFIG (selected_language inp))) None = Ret mc → py_truthy (load_pdf_text inp) = true →
      ui_state ss = "recording" →
      (listen_and_transcribe recognize_whisper (heard inp)
           (stt_lang (MODEL_CONFIG (selected_language inp))) = Ret None ∨ listen_and_transcribe recognize_whisper (heard inp)
           (stt_lang (MODEL_CONFIG (selected_language inp))) = Ret (Some "")) →
      pass_case inp ss w
        (PassResult Rerun {| answer_data := answer_data ss; ss_question := ss_question ss;
                             ui_state := "idle" |} w None)
  | answer_missing mc :
      load_model_components from_pretrained_tokenizer from_pretrained_model
        make_qa_pipeline (cuda_available inp)
        (model_name (MODEL_CONFIG (selected_language inp))) None = Ret mc → py_truthy (load_pdf_text inp) = true →
      ui_state ss = "done" → answer_data ss = None →
      pass_case inp ss w
        (PassResult (Crashed "TypeError: 'NoneType' object is not subscriptable") ss w None)
  | answer_shown mc ans_data :
      load_model_components from_pretrained_tokenizer from_pretrained_model
        make_qa_pipeline (cuda_available inp)
        (model_name (MODEL_CONFIG (selected_language inp))) None = Ret mc → py_truthy (load_pdf_text inp) = true →
      ui_state ss = "done" → answer_data ss = Some ans_data →
      pass_case inp ss w
        (PassResult (if again_clicked inp then Rerun else Completed)
           (if again_clicked inp then initial_session else ss) w
           (text_to_speech gtts_save (now inp) (ans_answer ans_data)
              (lang_code (MODEL_CONFIG (selected_language inp)))))
  | no_block mc :
      load_model_components from_pretrained_tokenizer from_pretrained_model
        make_qa_pipeline (cuda_available inp)
        (model_name (MODEL_CONFIG (selected_language inp))) None = Ret mc → py_truthy (load_pdf_text inp) = true →
      ui_state ss ≠ "idle" → ui_state ss ≠ "recording" → ui_state ss ≠ "done" →
      pass_case inp ss w (PassResult Completed ss w None).

End App.

(** ** A model hub, a recognizer and a speech service for concrete runs *)

(** A hub that has every model: a model keeps the name it was loaded under. *)
Definition hub_tokenizer : pystr → py_result tokenizer := λ _, Ret flan_tokenizer.

Definition hub_model : pystr → pystr → py_result gen_model :=
  λ name _, Ret {| name_or_path := name; gen_generate := gen_generate flan_t5 |}.

Definition hub_pipeline : pystr → pystr → pystr → py_result (pipeline nat) :=
  λ _ _ _, Ret (scripted [Returned [0]; Returned [1]; Returned [2]]).

Definition whisper_stub : nat → pystr → recognition := λ _ _, Recognized moon_question.

Definition gtts_stub : pystr → pystr → pystr → option pystr := λ _ _ _, None.

(** A PDF of one page with the text [doc_abc]. *)
Definition moon_pdf : pdf_file := Ret [Ret (Some doc_abc)].

(** A pass on a machine without a microphone, with the default PDF in
    place and no button clicked. *)
Definition no_microphone : pass_input nat :=
  {| selected_language := Sanskrit; use_default_pdf := true; uploaded_file := None;
     files := λ _, Some moon_pdf; text_q := ""; submit_clicked := false;
     record_clicked := false; again_clicked := false;
     heard := CaptureRaised "OSError: No Default Input Device Available";
     now := 17000000002 # 10; cuda_available := false |}.

(** The same pass with the question typed and submitted. *)
Definition typed_question : pass_input nat :=
  {| selected_language := Sanskrit; use_default_pdf := true; uploaded_file := None;
     files := λ _, Some moon_pdf; text_q := moon_question; submit_clicked := true;
     record_clicked := false; again_clicked := false;
     heard := CaptureRaised "OSError: No Default Input Device Available";
     now := 17000000002 # 10; cuda_available := false |}.

(** A later pass with Japanese selected and nothing clicked. *)
Definition japanese_selected : pass_input nat :=
  {| selected_language := Japanese; use_default_pdf := true; uploaded_file := None;
     files := λ _, Some moon_pdf; text_q := ""; submit_clicked := false;
     record_clicked := false; again_clicked := false;
     heard := CaptureRaised "OSError: No Default Input Device Available";
     now := 17000000059 # 10; cuda_available := false |}.

Definition recording_session : session :=
  {| answer_data := None; ss_question := ""; ui_state := "recording" |}.

(** The session after the Moon question was answered. *)
Definition moon_session : session :=
  {| answer_data := Some {| ans_answer := "the Moon"; ans_score := 9 # 10;
                            ans_context := abc_window_1 |};
     ss_question := moon_question; ui_state := "done" |}.

(** ** Facts about the primitives *)

Lemma str_repeat_length c n : String.length (str_repeat c n) = n.
Proof. induction n as [|n IH]; simpl; [done | by rewrite IH]. Qed.

Lemma substring_length (s : pystr) n m :
  String.length (String.substring n m s) = Nat.min m (String.length s - n).
Proof.
  revert n m. induction s as [|c s IH]; intros n m.
  - destruct n, m; simpl; lia.
  - destruct n as [|n].
    + destruct m as [|m]; simpl; [done|]. rewrite IH. simpl. lia.
    + simpl. apply IH.
Qed.

Lemma py_slice_length s i j :
  String.length (py_slice s i j) = Nat.min (j - i) (String.length s - i).
Proof. apply substring_length. Qed.

Lemma py_slice_get s i j p :
  p < j - i → String.get p (py_slice s i j) = String.get (i + p) s.
Proof.
  intros Hp. unfold py_slice. rewrite Nat.add_comm. by apply String.substring_correct1.
Qed.

(** The loop of [range] yields the multiples it should, provided the fuel
    covers the distance left. *)
Lemma range_loop_closed step fuel i stop :
  0 < step → stop - i ≤ fuel →
  range_loop fuel i stop step
  = (λ k, i + k * step) <$> seq 0 (ceil_div (stop - i) step).
Proof.
  intros Hstep. revert i. induction fuel as [|fuel IH]; intros i Hfuel.
  - replace (stop - i) with 0 by lia. unfold ceil_div.
    rewrite Nat.div_small; [done | lia].
  - simpl. destruct (Nat.ltb_spec i stop) as [Hlt|Hge].
    + rewrite IH by lia.
      assert (ceil_div (stop - i) step = S (ceil_div (stop - (i + step)) step)) as ->.
      { unfold ceil_div.
        destruct (decide (stop - i ≤ step)) as [Hsmall|Hbig].
        - replace (stop - (i + step)) with 0 by lia.
          rewrite (Nat.div_small (0 + step - 1)) by lia.
          replace (stop - i + step - 1) with (1 * step + (stop - i - 1)) by lia.
          rewrite Nat.div_add_l by lia. rewrite Nat.div_small; lia.
        - replace (stop - i + step - 1)
            with (1 * step + (stop - (i + step) + step - 1)) by lia.
          rewrite Nat.div_add_l by lia. lia. }
      rewrite <- cons_seq, <- fmap_S_seq. simpl. rewrite <- list_fmap_compose.
      f_equal; [lia|]. apply list_fmap_ext. intros _ k _. simpl. lia.
    + replace (stop - i) with 0 by lia. unfold ceil_div.
      rewrite Nat.div_small; [done | lia].
Qed.

Lemma py_range_closed stop step :
  0 < step → py_range 0 stop step = (λ k, k * step) <$> seq 0 (ceil_div stop step).
Proof.
  intros Hstep. unfold py_range.
  rewrite (range_loop_closed step) by lia. by rewrite Nat.sub_0_r.
Qed.

Lemma ceil_div_pos a b : 0 < b → 0 < a → 0 < ceil_div a b.
Proof.
  intros Hb Ha. unfold ceil_div.
  apply Nat.div_str_pos. lia.
Qed.

(** [k < ceil(a/b)] says that the [k]-th multiple of [b] is still below [a]. *)
Lemma lt_ceil_div a b k : 0 < b → k < ceil_div a b ↔ k * b < a.
Proof.
  intros Hb. unfold ceil_div. split.
  - intros Hk. destruct (decide (k * b < a)) as [|Hn]; [done|]. exfalso.
    assert ((a + b - 1) / b < S k); [|lia].
    apply Nat.Div0.div_lt_upper_bound. nia.
  - intros Hk. apply Nat.div_le_lower_bound; nia.
Qed.

(** ** The chunking loop *)

Lemma make_chunks_str (s : pystr) :
  make_chunks (PyStr s)
  = (λ k, py_slice s (k * (max_chunk_len - overlap))
                     (k * (max_chunk_len - overlap) + max_chunk_len))
      <$> seq 0 (ceil_div (String.length s) (max_chunk_len - overlap)).
Proof.
  unfold make_chunks. simpl py_truthy. simpl isinstance_str. simpl py_str.
  destruct (Nat.eqb_spec (String.length s) 0) as [H0|Hpos]; simpl negb; cbv iota.
  - rewrite H0. reflexivity.
  - rewrite andb_true_r. cbv iota zeta.
    rewrite py_range_closed by (unfold max_chunk_len, overlap; lia).
    by rewrite <- list_fmap_compose.
Qed.

Lemma make_chunks_not_str (v : pyval) :
  isinstance_str v = false → make_chunks v = [].
Proof. intros H. unfold make_chunks. rewrite H. by rewrite andb_false_r. Qed.

Lemma make_chunks_length (s : pystr) :
  length (make_chunks (PyStr s)) = ceil_div (String.length s) (max_chunk_len - overlap).
Proof. by rewrite make_chunks_str, length_fmap, length_seq. Qed.

Lemma make_chunks_lookup (s : pystr) k :
  k < ceil_div (String.length s) (max_chunk_len - overlap) →
  make_chunks (PyStr s) !! k
  = Some (py_slice s (k * (max_chunk_len - overlap))
                     (k * (max_chunk_len - overlap) + max_chunk_len)).
Proof.
  intros Hk. rewrite make_chunks_str, list_lookup_fmap, lookup_seq_lt by done.
  reflexivity.
Qed.

Lemma make_chunks_inv (v : pyval) k chunk :
  make_chunks v !! k = Some chunk →
  ∃ s, v = PyStr s
       ∧ k * (max_chunk_len - overlap) < String.length s
       ∧ chunk = py_slice s (k * (max_chunk_len - overlap))
                            (k * (max_chunk_len - overlap) + max_chunk_len).
Proof.
  destruct v as [|s|b r].
  - by rewrite make_chunks_not_str.
  - rewrite make_chunks_str, list_lookup_fmap. intros Hk.
    destruct (seq _ _ !! k) as [k'|] eqn:Hseq; [|done].
    apply lookup_seq in Hseq as [-> Hlt]. simpl in Hk. injection Hk as <-.
    exists s. split; [done|]. split; [|done].
    apply lt_ceil_div in Hlt; [done | unfold max_chunk_len, overlap; lia].
  - by rewrite make_chunks_not_str.
Qed.

Lemma chunk_length (s : pystr) k :
  String.length (py_slice s (k * (max_chunk_len - overlap))
                            (k * (max_chunk_len - overlap) + max_chunk_len))
  = Nat.min max_chunk_len (String.length s - k * (max_chunk_len - overlap)).
Proof. rewrite py_slice_length. f_equal. lia. Qed.

Lemma empty_string_length (s : pystr) : String.length s = 0 ↔ s = "".
Proof. destruct s; simpl; split; intros; congruence. Qed.

(** ** Annotating the results of one window *)

Lemma set_context_idemp chunk d :
  set_context chunk (set_context chunk d) = set_context chunk d.
Proof. reflexivity. Qed.

(** Every object is either left alone or is a result that now carries the
    chunk; after a complete pass all results carry it. *)
Lemma annotate_lookup chunk results (h : store) r :
  (((annotate chunk results h).2 !! r = h !! r)
     ∧ ((annotate chunk results h).1 = None → r ∉ results))
  ∨ (r ∈ results ∧ (annotate chunk results h).2 !! r = set_context chunk <$> h !! r).
Proof.
  revert h. induction results as [|x rest IH]; intros h; simpl.
  - left. split; [done|]. intros _. apply not_elem_of_nil.
  - destruct (h !! x) as [d|] eqn:Hx; simpl.
    + destruct (IH (<[x := set_context chunk d]> h)) as [[Heq Hnot]|[Hin Heq]].
      * destruct (decide (r = x)) as [->|Hne].
        -- right. split; [apply elem_of_cons; by left|].
           by rewrite Heq, lookup_insert_eq, Hx.
        -- left. rewrite Heq, lookup_insert_ne by done. split; [done|].
           intros He. rewrite elem_of_cons. intros [?|?]; [done|]. by apply Hnot.
      * right. split; [apply elem_of_cons; by right|]. rewrite Heq.
        destruct (decide (r = x)) as [->|Hne].
        -- by rewrite lookup_insert_eq, Hx.
        -- by rewrite lookup_insert_ne.
    + left. split; [done|]. done.
Qed.

Lemma forallb_pointwise {A : Type} (f g : A → bool) (l : list A) :
  (∀ x, f x = g x) → forallb f l = forallb g l.
Proof. intros Hfg. induction l as [|x l IH]; simpl; [done|]. by rewrite Hfg, IH. Qed.

Lemma elem_of_concat {A : Type} (x : A) (ls : list (list A)) :
  x ∈ concat ls ↔ ∃ l, l ∈ ls ∧ x ∈ l.
Proof.
  induction ls as [|l ls IH]; simpl.
  - split; [by intros ?%not_elem_of_nil | by intros (? & ?%not_elem_of_nil & _)].
  - rewrite elem_of_app, IH. split.
    + intros [Hx|(l' & Hl' & Hx)]; [exists l | exists l']; split; try done.
      * apply elem_of_cons; by left.
      * apply elem_of_cons; by right.
    + intros (l' & [->|Hl']%elem_of_cons & Hx); [by left | right; eauto].
Qed.


Lemma annotate_ok chunk results (h : store) :
  (annotate chunk results h).1 = None ↔ forallb (is_dict h) results = true.
Proof.
  revert h. induction results as [|x rest IH]; intros h; simpl; [done|].
  unfold is_dict at 1. destruct (h !! x) as [d|] eqn:Hx; simpl.
  - rewrite IH.
    assert (∀ r, is_dict (<[x := set_context chunk d]> h) r = is_dict h r) as Hsame.
    { intros r. unfold is_dict. apply bool_decide_ext.
      destruct (decide (r = x)) as [->|Hne].
      - rewrite lookup_insert_eq, Hx. split; eauto.
      - by rewrite lookup_insert_ne. }
    by rewrite (forallb_pointwise _ _ _ Hsame).
  - done.
Qed.

Lemma annotate_is_dict chunk results (h : store) r :
  is_dict (annotate chunk results h).2 r = is_dict h r.
Proof.
  unfold is_dict. apply bool_decide_ext.
  destruct (annotate_lookup chunk results h r) as [[-> _]|[_ ->]]; [done|].
  by rewrite fmap_is_Some.
Qed.

Lemma annotate_value chunk results (h : store) r :
  cand_value <$> (annotate chunk results h).2 !! r = cand_value <$> h !! r.
Proof.
  destruct (annotate_lookup chunk results h r) as [[-> _]|[_ ->]]; [done|].
  by destruct (h !! r).
Qed.

(** ** One pass of the loop body, and the whole loop *)

Section LoopFacts.
Context {St : Type}.
Implicit Types (qa_pipeline : option (pipeline St)) (w : world St).

Lemma annotate_raised chunk (h : store) out :
  (annotate chunk (returned_refs out) h).1 = None → succeeded h out = false →
  ∃ e, out = Raised e.
Proof.
  destruct out as [results|e]; simpl; [|by eauto].
  intros Hok%annotate_ok. congruence.
Qed.

Lemma score_chunk_spec qa_pipeline question all_candidates w chunk :
  score_chunk qa_pipeline question (all_candidates, w) chunk
  = (all_candidates
       ++ contributed (heap w) (call_outcome qa_pipeline question chunk (scorer_st w)).2,
     {| scorer_st := (call_outcome qa_pipeline question chunk (scorer_st w)).1;
        heap := (annotate chunk
                   (returned_refs (call_outcome qa_pipeline question chunk (scorer_st w)).2)
                   (heap w)).2;
        trace := trace w
                 ++ window_events qa_pipeline question (heap w) chunk
                      (call_outcome qa_pipeline question chunk (scorer_st w)).2 |}).
Proof.
  unfold score_chunk, call_pipeline, call_outcome, window_events, contributed.
  destruct qa_pipeline as [f|]; simpl.
  - destruct (f (scorer_st w) _) as [st' [results|e]]; simpl.
    + pose proof (annotate_ok chunk results (heap w)) as Hok.
      destruct (annotate chunk results (heap w)) as [[e|] h'] eqn:Hann; simpl in *.
      * destruct (forallb _ _); [destruct Hok as [_ Hok]; by specialize (Hok eq_refl)|].
        unfold print_error, emit, set_heap. simpl.
        rewrite app_nil_r. by rewrite <- List.app_assoc.
      * destruct Hok as [Hok _]. rewrite (Hok eq_refl).
        unfold set_heap. simpl. by rewrite ?app_nil_r.
    + unfold print_error, emit. simpl. rewrite app_nil_r. by rewrite <- List.app_assoc.
  - unfold print_error, emit. destruct w; simpl. by rewrite ?app_nil_r.
Qed.

Lemma contributed_is_dict (h h' : store) out :
  (∀ r, is_dict h' r = is_dict h r) → contributed h' out = contributed h out.
Proof.
  intros Hd. unfold contributed, succeeded. destruct out; [|done].
  by rewrite (forallb_pointwise _ _ _ Hd).
Qed.

Lemma score_loop_spec qa_pipeline question chunks all_candidates w :
  foldl (score_chunk qa_pipeline question) (all_candidates, w) chunks
  = (all_candidates
       ++ concat (contributed (heap w)
                    <$> run_outcomes qa_pipeline question (scorer_st w) chunks),
     {| scorer_st := run_state qa_pipeline question (scorer_st w) chunks;
        heap := run_heap qa_pipeline question (scorer_st w) (heap w) chunks;
        trace := trace w
                 ++ run_events qa_pipeline question (scorer_st w) (heap w) chunks |}).
Proof.
  revert all_candidates w. induction chunks as [|chunk rest IH]; intros pool w.
  - simpl. rewrite !app_nil_r. by destruct w.
  - cbn [foldl run_outcomes run_state run_heap run_events].
    rewrite score_chunk_spec, IH, fmap_cons. cbn [concat scorer_st heap trace].
    rewrite <- !List.app_assoc. do 4 f_equal.
    apply list_fmap_ext. intros _ out _.
    apply contributed_is_dict, annotate_is_dict.
Qed.

Lemma score_chunks_spec qa_pipeline question chunks w :
  score_chunks qa_pipeline question chunks w
  = (concat (contributed (heap w)
               <$> run_outcomes qa_pipeline question (scorer_st w) chunks),
     {| scorer_st := run_state qa_pipeline question (scorer_st w) chunks;
        heap := run_heap qa_pipeline question (scorer_st w) (heap w) chunks;
        trace := trace w
                 ++ run_events qa_pipeline question (scorer_st w) (heap w) chunks |}).
Proof. unfold score_chunks. by rewrite score_loop_spec. Qed.

End LoopFacts.

(** ** The store after the loop *)

Section StoreFacts.
Context {St : Type}.
Implicit Types (qa_pipeline : option (pipeline St)).

Lemma contributed_returned (h : store) out r :
  r ∈ contributed h out → r ∈ returned_refs out ∧ succeeded h out = true.
Proof.
  unfold contributed. destruct (succeeded h out); [done|].
  intros Hin. by apply not_elem_of_nil in Hin.
Qed.

Lemma contributed_annotated chunk (h : store) out r :
  r ∈ contributed h out → (annotate chunk (returned_refs out) h).1 = None.
Proof.
  intros [_ Hs]%contributed_returned. destruct out as [results|e]; [|done].
  by apply annotate_ok.
Qed.

Lemma contributed_dict (h : store) out r :
  r ∈ contributed h out → is_Some (h !! r).
Proof.
  intros [Hin Hs]%contributed_returned. destruct out as [results|e]; [|done].
  simpl in *. rewrite forallb_forall in Hs. apply list_elem_of_In in Hin.
  specialize (Hs _ Hin). unfold is_dict in Hs. by apply bool_decide_eq_true in Hs.
Qed.

Lemma run_heap_is_dict qa_pipeline question chunks st (h : store) r :
  is_dict (run_heap qa_pipeline question st h chunks) r = is_dict h r.
Proof.
  revert st h. induction chunks as [|chunk rest IH]; intros st h; simpl; [done|].
  by rewrite IH, annotate_is_dict.
Qed.

Lemma run_heap_value qa_pipeline question chunks st (h : store) r :
  cand_value <$> run_heap qa_pipeline question st h chunks !! r = cand_value <$> h !! r.
Proof.
  revert st h. induction chunks as [|chunk rest IH]; intros st h; simpl; [done|].
  by rewrite IH, annotate_value.
Qed.

(** An object is either left as it was, and then no window contributed it,
    or its context is the chunk of a window whose call handed it back. *)
Lemma run_heap_lookup qa_pipeline question chunks st (h : store) r :
  (run_heap qa_pipeline question st h chunks !! r = h !! r
     ∧ r ∉ concat (contributed h <$> run_outcomes qa_pipeline question st chunks))
  ∨ (∃ k chunk out,
        chunks !! k = Some chunk
        ∧ run_outcomes qa_pipeline question st chunks !! k = Some out
        ∧ r ∈ returned_refs out
        ∧ run_heap qa_pipeline question st h chunks !! r = set_context chunk <$> h !! r).
Proof.
  revert st h. induction chunks as [|chunk rest IH]; intros st h.
  - left. split; [done|]. simpl. apply not_elem_of_nil.
  - cbn [run_heap run_outcomes]. rewrite fmap_cons. cbn [concat].
    set (out0 := (call_outcome qa_pipeline question chunk st).2).
    set (st1 := (call_outcome qa_pipeline question chunk st).1).
    set (h1 := (annotate chunk (returned_refs out0) h).2).
    destruct (IH st1 h1) as [[Hrun Hnot]|(k & chunk' & out & Hk & Hout & Hin & Hrun)].
    + destruct (annotate_lookup chunk (returned_refs out0) h r) as [[Heq Hann]|[Hin Heq]].
      * left. split; [by rewrite Hrun|].
        rewrite elem_of_app. intros [Hc|Hc].
        -- apply Hann; [by eapply contributed_annotated | by eapply contributed_returned].
        -- apply Hnot. erewrite list_fmap_ext; [exact Hc|].
           intros _ o _. subst h1. apply contributed_is_dict, annotate_is_dict.
      * right. exists 0, chunk, out0. repeat split; [done|]. by rewrite Hrun.
    + right. exists (S k), chunk', out. repeat split; [done..|].
      rewrite Hrun. subst h1.
      destruct (annotate_lookup chunk (returned_refs out0) h r) as [[-> _]|[_ ->]]; [done|].
      by destruct (h !! r).
Qed.

(** A pooled object is a dict whose context is the chunk of such a window. *)
Lemma pooled_lookup qa_pipeline question chunks st (h : store) r :
  r ∈ concat (contributed h <$> run_outcomes qa_pipeline question st chunks) →
  ∃ d k chunk out,
    h !! r = Some d
    ∧ chunks !! k = Some chunk
    ∧ run_outcomes qa_pipeline question st chunks !! k = Some out
    ∧ r ∈ returned_refs out
    ∧ run_heap qa_pipeline question st h chunks !! r = Some (set_context chunk d).
Proof.
  intros Hin.
  assert (is_Some (h !! r)) as [d Hd].
  { apply elem_of_concat in Hin as (l & Hl & Hr).
    apply list_elem_of_fmap in Hl as (out & -> & _). by eapply contributed_dict. }
  destruct (run_heap_lookup qa_pipeline question chunks st h r)
    as [[_ Hnot]|(k & chunk & out & Hk & Hout & Hr & Hrun)]; [done|].
  exists d, k, chunk, out. repeat split; [done..|]. by rewrite Hrun, Hd.
Qed.

End StoreFacts.

(** ** Selection *)

Lemma Qgtb_true a b : Qgtb a b = true → (b < a)%Q.
Proof.
  unfold Qgtb. destruct (a ?= b)%Q eqn:Hc; try done. intros _.
  by apply Qgt_alt.
Qed.

Lemma Qgtb_false a b : Qgtb a b = false → (a <= b)%Q.
Proof.
  unfold Qgtb. destruct (a ?= b)%Q eqn:Hc; try done; intros _;
    apply Qle_alt; by rewrite Hc.
Qed.

Lemma max_loop_spec {A : Type} (key : A → Q) (rest pre : list A) (i : nat) (best : A) :
  first_max key pre i best →
  ∃ i' best',
    foldl (λ best item, if Qgtb (key item) (key best) then item else best) best rest = best'
    ∧ first_max key (pre ++ rest) i' best'.
Proof.
  revert pre i best. induction rest as [|x rest IH]; intros pre i best Hinv.
  - exists i, best. by rewrite app_nil_r.
  - cbn [foldl]. destruct Hinv as (Hi & Hle & Hlt).
    assert (i < length pre) as Hipre by (by eapply lookup_lt_Some).
    replace (pre ++ x :: rest) with ((pre ++ [x]) ++ rest)
      by (by rewrite <- List.app_assoc).
    destruct (Qgtb (key x) (key best)) eqn:Hgt.
    + apply Qgtb_true in Hgt. apply (IH (pre ++ [x]) (length pre) x).
      split; [|split].
      * rewrite lookup_app_r by lia. by rewrite Nat.sub_diag.
      * intros j y Hj. destruct (decide (j < length pre)) as [Hjl|Hjl].
        -- rewrite lookup_app_l in Hj by done.
           apply Qlt_le_weak. eapply Qle_lt_trans; [by eapply Hle | done].
        -- rewrite lookup_app_r in Hj by lia.
           destruct (j - length pre) as [|n]; simpl in Hj; [|done].
           injection Hj as <-. apply Qle_refl.
      * intros j y Hjl Hj. rewrite lookup_app_l in Hj by done.
        eapply Qle_lt_trans; [by eapply Hle | done].
    + apply Qgtb_false in Hgt. apply (IH (pre ++ [x]) i best).
      split; [|split].
      * by rewrite lookup_app_l.
      * intros j y Hj. destruct (decide (j < length pre)) as [Hjl|Hjl].
        -- rewrite lookup_app_l in Hj by done. by eapply Hle.
        -- rewrite lookup_app_r in Hj by lia.
           destruct (j - length pre) as [|n]; simpl in Hj; [|done].
           by injection Hj as <-.
      * intros j y Hjl Hj. rewrite lookup_app_l in Hj by lia. by eapply Hlt.
Qed.

(** [max] with a key returns the first item with the greatest key. *)
Lemma py_max_by_spec {A : Type} (key : A → Q) (xs : list A) :
  xs ≠ [] → ∃ i best, py_max_by key xs = Some best ∧ first_max key xs i best.
Proof.
  destruct xs as [|x rest]; [done|]. intros _. simpl.
  destruct (max_loop_spec key rest [x] 0 x) as (i & best & Hfold & Hmax).
  - split; [done|]. split.
    + intros [|j] y Hj; simpl in Hj; [|done]. injection Hj as <-. apply Qle_refl.
    + intros j y Hj. lia.
  - exists i, best. by rewrite Hfold.
Qed.

Lemma py_max_by_None {A : Type} (key : A → Q) (xs : list A) :
  py_max_by key xs = None ↔ xs = [].
Proof. by destruct xs. Qed.

Lemma valid_candidates_spec (h : store) all_candidates :
  Forall (λ r, is_Some (h !! r)) all_candidates →
  valid_candidates_of h all_candidates = Ret (omap (keep_valid h) all_candidates).
Proof.
  induction 1 as [|r pool [d Hd] _ IH]; simpl; [done|].
  assert (keep_valid h r = if answer_usable d then Some (r, d) else None) as ->
    by (unfold keep_valid; by rewrite Hd).
  rewrite Hd, IH. by destruct (answer_usable d).
Qed.

Lemma elem_of_valid (h : store) (all_candidates : list nat) r d :
  (r, d) ∈ omap (keep_valid h) all_candidates
  ↔ r ∈ all_candidates ∧ h !! r = Some d ∧ answer_usable d = true.
Proof.
  rewrite list_elem_of_omap. unfold keep_valid. split.
  - intros (r' & Hin & Hk). destruct (h !! r') as [d'|] eqn:Hd; [|done].
    destruct (answer_usable d') eqn:Hu; [|done]. by injection Hk as -> ->.
  - intros (Hin & Hd & Hu). exists r. by rewrite Hd, Hu.
Qed.

Lemma answer_usable_spec d :
  answer_usable d = true ↔ ∃ a, d_answer d = Some a ∧ a ≠ "".
Proof.
  unfold answer_usable, str_truthy. destruct (d_answer d) as [a|]; simpl.
  - rewrite negb_true_iff, Nat.eqb_neq, empty_string_length. split; [eauto|].
    by intros (? & [= <-] & ?).
  - split; [done | by intros (? & ? & _)].
Qed.

Lemma select_best_spec (h : store) (all_candidates : list nat) :
  (∀ r, r ∈ all_candidates → ∃ d c, h !! r = Some d ∧ d_context d = Some c) →
  valid_candidates_of h all_candidates = Ret (omap (keep_valid h) all_candidates)
  ∧ ((omap (keep_valid h) all_candidates = []
        ∧ select_best h all_candidates = Ret no_confident_answer)
     ∨ (∃ i cand d a c,
           first_max (λ x, d_score x.2) (omap (keep_valid h) all_candidates) i (cand, d)
           ∧ cand ∈ all_candidates ∧ h !! cand = Some d
           ∧ d_answer d = Some a ∧ a ≠ "" ∧ d_context d = Some c
           ∧ select_best h all_candidates
             = Ret {| ans_answer := a; ans_score := d_score d; ans_context := c |})).
Proof.
  intros Hpool.
  assert (valid_candidates_of h all_candidates = Ret (omap (keep_valid h) all_candidates))
    as Hvalid.
  { apply valid_candidates_spec, Forall_forall. intros r Hr.
    destruct (Hpool r Hr) as (d & c & Hd & _). eauto. }
  split; [done|]. unfold select_best. rewrite Hvalid.
  destruct (omap (keep_valid h) all_candidates) as [|x valid] eqn:Hv.
  - left. done.
  - right.
    destruct (py_max_by_spec (λ x, d_score x.2) (x :: valid)) as (i & [cand d] & -> & Hmax);
      [done|].
    assert ((cand, d) ∈ omap (keep_valid h) all_candidates) as Hin.
    { rewrite Hv. destruct Hmax as (Hi & _). by eapply list_elem_of_lookup_2. }
    apply elem_of_valid in Hin as (Hin & Hd & Hu).
    apply answer_usable_spec in Hu as (a & Ha & Hne).
    destruct (Hpool cand Hin) as (d' & c & Hd' & Hc).
    assert (d' = d) as -> by congruence.
    exists i, cand, d, a, c. simpl. rewrite Ha, Hc. done.
Qed.

(** ** The two paths of [get_answer] *)

Section Paths.
Context {St : Type}.
Implicit Types (mc : model_components St) (w : world St).

Lemma get_answer_extractive mc question pdf_text w :
  is_generative mc = false →
  get_answer mc question pdf_text w
  = extractive_answer (mc_pipeline mc) question pdf_text w.
Proof.
  unfold is_generative, get_answer. destruct (mc_model mc) as [model|]; [|done].
  by intros ->.
Qed.

Lemma extractive_answer_empty (qa_pipeline : option (pipeline St)) question pdf_text w :
  make_chunks pdf_text = [] →
  extractive_answer qa_pipeline question pdf_text w = (Ret empty_document_answer, w).
Proof. unfold extractive_answer. by intros ->. Qed.

Lemma extractive_answer_scored (qa_pipeline : option (pipeline St)) question pdf_text w :
  make_chunks pdf_text ≠ [] →
  extractive_answer qa_pipeline question pdf_text w
  = (select_best (heap (score_chunks qa_pipeline question (make_chunks pdf_text) w).2)
       (score_chunks qa_pipeline question (make_chunks pdf_text) w).1,
     (score_chunks qa_pipeline question (make_chunks pdf_text) w).2).
Proof.
  unfold extractive_answer, st_spinner. destruct (make_chunks pdf_text) as [|c cs]; [done|].
  intros _. by destruct (score_chunks _ _ _ _).
Qed.

(** After the loop every pooled object is a dict that carries a context. *)
Lemma pooled_has_context (qa_pipeline : option (pipeline St)) question chunks w
    all_candidates w' r :
  score_chunks qa_pipeline question chunks w = (all_candidates, w') →
  r ∈ all_candidates → ∃ d c, heap w' !! r = Some d ∧ d_context d = Some c.
Proof.
  rewrite score_chunks_spec. intros [= <- <-] Hin. simpl.
  destruct (pooled_lookup _ _ _ _ _ _ Hin) as (d & k & chunk & out & _ & _ & _ & _ & Hrun).
  by exists (set_context chunk d), chunk.
Qed.

(** With a non-empty filtered pool the extractive path answers with the
    first candidate of greatest score. *)
Lemma extractive_selected (qa_pipeline : option (pipeline St)) question pdf_text w
    all_candidates w' valid_candidates :
  score_chunks qa_pipeline question (make_chunks pdf_text) w = (all_candidates, w') →
  valid_candidates_of (heap w') all_candidates = Ret valid_candidates →
  valid_candidates ≠ [] →
  valid_candidates = omap (keep_valid (heap w')) all_candidates
  ∧ ∃ i cand d a c,
      first_max (λ x, d_score x.2) valid_candidates i (cand, d)
      ∧ cand ∈ all_candidates
      ∧ heap w' !! cand = Some d
      ∧ d_answer d = Some a ∧ d_context d = Some c
      ∧ extractive_answer qa_pipeline question pdf_text w
        = (Ret {| ans_answer := a; ans_score := d_score d; ans_context := c |}, w').
Proof.
  intros Hloop Hvalid Hne.
  assert (make_chunks pdf_text ≠ []) as Hchunks.
  { intros Hnil. rewrite Hnil in Hloop. injection Hloop as <- <-.
    simpl in Hvalid. injection Hvalid as <-. done. }
  destruct (select_best_spec (heap w') all_candidates) as (Hvalid' & Hsel).
  { intros r Hr. by eapply pooled_has_context. }
  rewrite Hvalid in Hvalid'. injection Hvalid' as ->. split; [done|].
  destruct Hsel as [[Hnil _]|(i & cand & d & a & c & Hmax & Hin & Hd & Ha & _ & Hc & Hsel)];
    [done|].
  exists i, cand, d, a, c. repeat split; try done; try apply Hmax.
  rewrite extractive_answer_scored, Hloop by done. simpl. by rewrite Hsel.
Qed.

Lemma make_chunks_empty_iff (pdf_text : pyval) :
  make_chunks pdf_text = []
  ↔ pdf_text = PyNone ∨ pdf_text = PyStr "" ∨ ∃ b r, pdf_text = PyObj b r.
Proof.
  split.
  - destruct pdf_text as [|s|b r]; [by left | | right; right; eauto].
    intros Hnil. right. left. f_equal. apply empty_string_length.
    destruct (decide (String.length s = 0)) as [|Hpos]; [done|]. exfalso.
    pose proof (make_chunks_length s) as Hlen. rewrite Hnil in Hlen. cbn [length] in Hlen.
    assert (0 < ceil_div (String.length s) (max_chunk_len - overlap)); [|lia].
    apply ceil_div_pos; [unfold max_chunk_len, overlap|]; lia.
  - intros [->|[->|(b & r & ->)]]; [done | done | by apply make_chunks_not_str].
Qed.

End Paths.

(** ** Runs of a pipeline that builds its results afresh *)

Section FreshFacts.
Context {St : Type}.
Implicit Types (qa_pipeline : option (pipeline St)).

(** When no object is handed back twice, every pooled object ends with the
    chunk of the one window that contributed it. *)
Lemma run_dicts_spec qa_pipeline question chunks st (h : store) :
  alias_free qa_pipeline question st chunks →
  (λ r, run_heap qa_pipeline question st h chunks !! r)
    <$> concat (contributed h <$> run_outcomes qa_pipeline question st chunks)
  = run_dicts qa_pipeline question st h chunks.
Proof.
  unfold alias_free. revert st h. induction chunks as [|chunk rest IH]; intros st h Hnd.
  - done.
  - cbn [run_heap run_outcomes run_dicts] in *. rewrite fmap_cons in *. cbn [concat] in *.
    set (out0 := (call_outcome qa_pipeline question chunk st).2) in *.
    set (st1 := (call_outcome qa_pipeline question chunk st).1) in *.
    set (h1 := (annotate chunk (returned_refs out0) h).2).
    apply NoDup_app in Hnd as (_ & Hdisj & Hnd).
    rewrite fmap_app. f_equal.
    + unfold window_dicts. apply list_fmap_ext. intros _ r Hr%list_elem_of_lookup_2.
      assert (h1 !! r = set_context chunk <$> h !! r) as Hh1.
      { subst h1.
        destruct (annotate_lookup chunk (returned_refs out0) h r) as [[_ Hnot]|[_ Heq]];
          [|done].
        exfalso. apply Hnot; [by eapply contributed_annotated | by eapply contributed_returned]. }
      destruct (run_heap_lookup qa_pipeline question rest st1 h1 r)
        as [[-> _]|(k & chunk' & out & _ & Hout & Hin & _)]; [done|].
      exfalso. apply (Hdisj r); [by eapply contributed_returned|].
      apply elem_of_concat. exists (returned_refs out). split; [|done].
      apply list_elem_of_fmap. exists out. split; [done|]. by eapply list_elem_of_lookup_2.
    + assert (contributed h <$> run_outcomes qa_pipeline question st1 rest
              = contributed h1 <$> run_outcomes qa_pipeline question st1 rest) as ->.
      { apply list_fmap_ext. intros _ o _. symmetry.
        apply (contributed_is_dict h h1), annotate_is_dict. }
      rewrite (IH st1 h1 Hnd). clear IH.
      assert (∀ r, r ∈ concat (returned_refs
                                 <$> run_outcomes qa_pipeline question st1 rest) →
                   h1 !! r = h !! r) as Hsame.
      { intros r Hr. subst h1.
        destruct (annotate_lookup chunk (returned_refs out0) h r) as [[Heq _]|[Hin _]];
          [done|]. exfalso. by apply (Hdisj r). }
      clearbody st1. clear Hdisj Hnd. revert st1 Hsame.
      induction rest as [|c rest IH]; intros st1 Hsame; [done|].
      cbn [run_dicts run_outcomes] in *. rewrite fmap_cons in Hsame. cbn [concat] in Hsame.
      f_equal.
      * unfold window_dicts.
        rewrite (contributed_is_dict h h1) by (intros r; apply annotate_is_dict).
        apply list_fmap_ext. intros _ r Hr%list_elem_of_lookup_2.
        rewrite Hsame; [done|]. apply elem_of_app. left. by eapply contributed_returned.
      * apply IH. intros r Hr. apply Hsame, elem_of_app. by right.
Qed.

Lemma succeeded_values (h : store) out1 out2 :
  outcome_values h out1 = outcome_values h out2 → succeeded h out1 = succeeded h out2.
Proof. unfold outcome_values. by destruct (succeeded h out1), (succeeded h out2). Qed.

Lemma set_context_values chunk d1 d2 :
  cand_value d1 = cand_value d2 → set_context chunk d1 = set_context chunk d2.
Proof. unfold cand_value, set_context. by intros [= -> ->]. Qed.

(** Two windows with the same chunk whose calls returned the same values
    contribute the same dicts, whatever the objects. *)
Lemma window_dicts_values (h h' : store) chunk out1 out2 :
  (∀ r, cand_value <$> h' !! r = cand_value <$> h !! r) →
  outcome_values h out1 = outcome_values h out2 →
  window_dicts h chunk out1 = window_dicts h' chunk out2.
Proof.
  intros Hval Hout.
  assert (∀ r, is_dict h' r = is_dict h r) as Hdict.
  { intros r. unfold is_dict. apply bool_decide_ext.
    rewrite <- (fmap_is_Some cand_value (h' !! r)), Hval. apply fmap_is_Some. }
  unfold window_dicts. rewrite (contributed_is_dict h h') by done.
  pose proof (succeeded_values _ _ _ Hout) as Hsucc.
  unfold outcome_values in Hout. unfold contributed. rewrite <- Hsucc in *.
  destruct (succeeded h out1) eqn:Hs1; [|done]. injection Hout as Hout.
  assert (forallb (is_dict h) (returned_refs out1) = true) as Hd1
    by (by destruct out1).
  assert (forallb (is_dict h) (returned_refs out2) = true) as Hd2
    by (symmetry in Hsucc; by destruct out2).
  revert Hout Hd1 Hd2. generalize (returned_refs out1) (returned_refs out2).
  induction l as [|r1 l1 IH]; intros [|r2 l2] Hout Hd1 Hd2; simpl in *.
  - done.
  - apply andb_prop in Hd2 as [Hr2 _]. unfold is_dict in Hr2.
    apply bool_decide_eq_true in Hr2 as [d2 Hr2]. by rewrite Hr2 in Hout.
  - apply andb_prop in Hd1 as [Hr1 _]. unfold is_dict in Hr1.
    apply bool_decide_eq_true in Hr1 as [d1 Hr1]. by rewrite Hr1 in Hout.
  - apply andb_prop in Hd1 as [Hr1 Hd1]. apply andb_prop in Hd2 as [Hr2 Hd2].
    unfold is_dict in Hr1, Hr2.
    apply bool_decide_eq_true in Hr1 as [d1 Hr1].
    apply bool_decide_eq_true in Hr2 as [d2 Hr2].
    rewrite Hr1, Hr2 in Hout. simpl in Hout. injection Hout as Hv Hout.
    f_equal; [|by apply IH].
    pose proof (Hval r2) as Hv2. rewrite Hr2 in Hv2. rewrite Hr1.
    destruct (h' !! r2) as [d2'|]; [|done]. simpl in *. injection Hv2 as Hv2.
    f_equal. apply set_context_values. unfold cand_value. congruence.
Qed.

Lemma run_dicts_values qa_pipeline question chunks st st' (h h' : store) :
  deterministic h qa_pipeline →
  (∀ r, cand_value <$> h' !! r = cand_value <$> h !! r) →
  run_dicts qa_pipeline question st h chunks
  = run_dicts qa_pipeline question st' h' chunks.
Proof.
  intros Hdet Hval. revert st st'. induction chunks as [|chunk rest IH]; intros st st'.
  - done.
  - cbn [run_dicts]. f_equal; [|apply IH].
    apply window_dicts_values; [done | apply Hdet].
Qed.

End FreshFacts.

(** ** Runs of a pipeline that is a function of its arguments *)

Section RepeatFacts.
Context {St : Type}.
Implicit Types (qa_pipeline : option (pipeline St)).

Lemma annotate_touches_is_dict (h h' : store) results r :
  (∀ x, is_dict h' x = is_dict h x) →
  annotate_touches h' results r = annotate_touches h results r.
Proof.
  intros Hd. induction results as [|x rest IH]; simpl; [done|]. by rewrite Hd, IH.
Qed.

Lemma annotate_touch chunk results (h : store) r :
  (annotate chunk results h).2 !! r
  = if annotate_touches h results r then set_context chunk <$> h !! r else h !! r.
Proof.
  revert h. induction results as [|x rest IH]; intros h; simpl; [done|].
  unfold is_dict at 1. destruct (h !! x) as [d|] eqn:Hx; simpl; [|done].
  rewrite IH.
  rewrite (annotate_touches_is_dict h (<[x := set_context chunk d]> h)).
  2:{ intros y. unfold is_dict. apply bool_decide_ext.
      destruct (decide (y = x)) as [->|Hne].
      - rewrite lookup_insert_eq, Hx. split; eauto.
      - by rewrite lookup_insert_ne. }
  destruct (decide (x = r)) as [->|Hne].
  - rewrite bool_decide_eq_true_2 by done. rewrite lookup_insert_eq, Hx. simpl.
    by destruct (annotate_touches h rest r).
  - rewrite bool_decide_eq_false_2 by done. by rewrite lookup_insert_ne.
Qed.

Lemma run_touch_is_dict qa_pipeline question chunks st (h h' : store) r :
  (∀ x, is_dict h' x = is_dict h x) →
  run_touch qa_pipeline question st h' chunks r
  = run_touch qa_pipeline question st h chunks r.
Proof.
  intros Hd. revert st. induction chunks as [|chunk rest IH]; intros st; simpl; [done|].
  by rewrite IH, (annotate_touches_is_dict h h').
Qed.

(** The context of an object after the run is the chunk of the last window
    that assigned to it. *)
Lemma run_heap_touch qa_pipeline question chunks st (h : store) r :
  run_heap qa_pipeline question st h chunks !! r
  = match run_touch qa_pipeline question st h chunks r with
    | Some c => set_context c <$> h !! r
    | None => h !! r
    end.
Proof.
  revert st h. induction chunks as [|chunk rest IH]; intros st h; [done|].
  cbn [run_heap run_touch]. rewrite IH.
  rewrite (run_touch_is_dict _ _ _ _ h) by (intros x; apply annotate_is_dict).
  rewrite annotate_touch.
  destruct (run_touch _ _ _ h rest r) as [c|];
    destruct (annotate_touches _ _ _); try done.
  by destruct (h !! r).
Qed.

Lemma repeatable_outcomes qa_pipeline question chunks st st' :
  repeatable qa_pipeline →
  run_outcomes qa_pipeline question st chunks
  = run_outcomes qa_pipeline question st' chunks.
Proof.
  intros Hrep. revert st st'. induction chunks as [|chunk rest IH]; intros st st'; [done|].
  cbn [run_outcomes]. f_equal; [apply Hrep | apply IH].
Qed.

Lemma repeatable_touch qa_pipeline question chunks st st' (h : store) r :
  repeatable qa_pipeline →
  run_touch qa_pipeline question st h chunks r
  = run_touch qa_pipeline question st' h chunks r.
Proof.
  intros Hrep. revert st st'. induction chunks as [|chunk rest IH]; intros st st'; [done|].
  cbn [run_touch]. rewrite (IH _ (call_outcome qa_pipeline question chunk st').1).
  by rewrite (Hrep question chunk st st').
Qed.

(** Annotating once more, along the same outcomes, changes nothing. *)
Lemma repeatable_heap qa_pipeline question chunks st st' (h : store) r :
  repeatable qa_pipeline →
  run_heap qa_pipeline question st'
    (run_heap qa_pipeline question st h chunks) chunks !! r
  = run_heap qa_pipeline question st h chunks !! r.
Proof.
  intros Hrep. rewrite (run_heap_touch _ _ _ st').
  rewrite (run_touch_is_dict _ _ _ _ h) by (intros x; apply run_heap_is_dict).
  rewrite (repeatable_touch _ _ _ st' st) by done.
  rewrite (run_heap_touch _ _ _ st).
  destruct (run_touch _ _ st h chunks r); [|done]. by destruct (h !! r).
Qed.

End RepeatFacts.

(** ** Selection depends on the dicts only *)

Lemma valid_candidates_values (h1 h2 : store) (pool1 pool2 : list nat) :
  (λ r, h1 !! r) <$> pool1 = (λ r, h2 !! r) <$> pool2 →
  match valid_candidates_of h1 pool1, valid_candidates_of h2 pool2 with
  | Ret v1, Ret v2 => v1.*2 = v2.*2
  | Raise e1, Raise e2 => e1 = e2
  | _, _ => False
  end.
Proof.
  revert pool2. induction pool1 as [|r1 pool1 IH]; intros [|r2 pool2] Heq; try done.
  rewrite !fmap_cons in Heq. injection Heq as Hr Heq. simpl. rewrite Hr.
  destruct (h2 !! r2) as [d|]; [|done].
  specialize (IH _ Heq).
  destruct (valid_candidates_of h1 pool1), (valid_candidates_of h2 pool2); try done.
  destruct (answer_usable d); [|done]. rewrite !fmap_cons. simpl. by rewrite IH.
Qed.

Lemma max_loop_values {A B : Type} (key : B → Q) (f1 f2 : A → B) (l1 l2 : list A) b1 b2 :
  f1 <$> l1 = f2 <$> l2 → f1 b1 = f2 b2 →
  f1 (foldl (λ best item, if Qgtb (key (f1 item)) (key (f1 best)) then item else best) b1 l1)
  = f2 (foldl (λ best item, if Qgtb (key (f2 item)) (key (f2 best)) then item else best) b2 l2).
Proof.
  revert l2 b1 b2. induction l1 as [|x1 l1 IH]; intros [|x2 l2] b1 b2 Heq Hb; try done.
  rewrite !fmap_cons in Heq. injection Heq as Hx Heq. cbn [foldl].
  apply IH; [done|]. rewrite Hx, Hb. by destruct (Qgtb _ _).
Qed.

Lemma select_best_values (h1 h2 : store) (pool1 pool2 : list nat) :
  (λ r, h1 !! r) <$> pool1 = (λ r, h2 !! r) <$> pool2 →
  select_best h1 pool1 = select_best h2 pool2.
Proof.
  intros Heq. pose proof (valid_candidates_values _ _ _ _ Heq) as Hv.
  unfold select_best.
  destruct (valid_candidates_of h1 pool1) as [v1|e1],
           (valid_candidates_of h2 pool2) as [v2|e2]; try done; [|by subst].
  destruct v1 as [|x1 v1], v2 as [|x2 v2]; try done.
  rewrite !fmap_cons in Hv. injection Hv as Hx Hv. cbn [py_max_by].
  pose proof (max_loop_values d_score snd snd v1 v2 x1 x2 Hv Hx) as Hbest.
  simpl in Hbest. by rewrite Hbest.
Qed.

(** ** The events of a run *)

Section EventFacts.
Context {St : Type}.
Implicit Types (qa_pipeline : option (pipeline St)).

Lemma annotate_message chunk results (h : store) :
  (annotate chunk results h).1
  = if forallb (is_dict h) results then None
    else Some "'str' object does not support item assignment".
Proof.
  revert h. induction results as [|x rest IH]; intros h; simpl; [done|].
  unfold is_dict at 1. destruct (h !! x) as [d|] eqn:Hx; simpl; [|done].
  rewrite IH. erewrite forallb_pointwise; [done|].
  intros r. unfold is_dict. apply bool_decide_ext.
  destruct (decide (r = x)) as [->|Hne].
  - rewrite lookup_insert_eq, Hx. split; eauto.
  - by rewrite lookup_insert_ne.
Qed.

Lemma failure_message_is_dict (h h' : store) chunk out :
  (∀ r, is_dict h' r = is_dict h r) →
  failure_message h' chunk out = failure_message h chunk out.
Proof.
  intros Hd. destruct out as [results|e]; simpl; [|done].
  by rewrite !annotate_message, (forallb_pointwise _ _ _ Hd).
Qed.

Lemma failure_message_None (h : store) chunk out :
  failure_message h chunk out = None ↔ succeeded h out = true.
Proof. destruct out as [results|e]; simpl; [apply annotate_ok | done]. Qed.

Lemma run_events_calls qa_pipeline question chunks st (h : store) :
  score_calls (run_events qa_pipeline question st h chunks)
  = match qa_pipeline with
    | Some _ => (λ chunk, QaArgs question chunk 3 true) <$> chunks
    | None => []
    end.
Proof.
  revert st h. induction chunks as [|chunk rest IH]; intros st h.
  - by destruct qa_pipeline.
  - cbn [run_events]. unfold score_calls in *. rewrite omap_app, IH.
    unfold window_events. rewrite omap_app.
    destruct qa_pipeline; destruct (failure_message _ _ _); reflexivity.
Qed.

Lemma run_events_prints qa_pipeline question chunks st (h : store) :
  printed_lines (run_events qa_pipeline question st h chunks)
  = failure_lines h chunks (run_outcomes qa_pipeline question st chunks).
Proof.
  revert st h. induction chunks as [|chunk rest IH]; intros st h; [done|].
  cbn [run_events run_outcomes]. unfold printed_lines in *. rewrite omap_app, IH.
  unfold window_events. rewrite omap_app.
  unfold failure_lines. cbn [zip zip_with]. cbn [omap list_omap fst snd].
  assert (∀ l, omap (λ co, (λ e, "Error processing a chunk: " +:+ e)
                            <$> failure_message
                                  (annotate chunk
                                     (returned_refs
                                        (call_outcome qa_pipeline question chunk st).2) h).2
                                  co.1 co.2) l
               = omap (λ co, (λ e, "Error processing a chunk: " +:+ e)
                            <$> failure_message h co.1 co.2) l) as ->.
  { intros l. apply list_omap_ext, Forall2_same_length_lookup. split; [done|].
    intros i x y Hx Hy. assert (x = y) as -> by congruence.
    f_equal. apply failure_message_is_dict, annotate_is_dict. }
  destruct qa_pipeline; destruct (failure_message h chunk _); reflexivity.
Qed.

Lemma run_outcomes_length qa_pipeline question chunks st :
  length (run_outcomes qa_pipeline question st chunks) = length chunks.
Proof.
  revert st. induction chunks as [|chunk rest IH]; intros st; [done|].
  cbn [run_outcomes length]. by rewrite IH.
Qed.

(** The printed lines are those of the failed windows, in order; the line of
    a window whose call raised holds the message of its exception. *)
Lemma failure_lines_failed (h : store) (chunks : list pystr) (outs : list outcome) :
  length chunks = length outs →
  Forall2 (λ line out, ∀ e, out = Raised e → line = "Error processing a chunk: " +:+ e)
    (failure_lines h chunks outs)
    (List.filter (λ out, negb (succeeded h out)) outs).
Proof.
  revert outs. induction chunks as [|chunk rest IH]; intros [|out outs] Hlen;
    try done.
  injection Hlen as Hlen. specialize (IH outs Hlen).
  unfold failure_lines in *. cbn [zip zip_with omap list_omap fst snd List.filter].
  destruct (succeeded h out) eqn:Hs; cbn [negb].
  - pose proof (proj2 (failure_message_None h chunk out) Hs) as Hmsg. by rewrite Hmsg.
  - destruct (failure_message h chunk out) as [msg|] eqn:Hmsg.
    + cbn [fmap option_fmap option_map]. constructor; [|done].
      intros e ->. cbn in Hmsg. by injection Hmsg as <-.
    + pose proof (proj1 (failure_message_None h chunk out) Hmsg). congruence.
Qed.

Lemma run_events_kinds qa_pipeline question chunks st (h : store) :
  Forall (λ ev, (∃ args, ev = EvScore args)
                ∨ (∃ e, ev = EvPrint ("Error processing a chunk: " +:+ e)))
         (run_events qa_pipeline question st h chunks).
Proof.
  revert st h. induction chunks as [|chunk rest IH]; intros st h; [done|].
  cbn [run_events]. apply Forall_app. split; [|apply IH].
  unfold window_events. apply Forall_app. split.
  - destruct qa_pipeline; [|done]. apply Forall_singleton. left. eauto.
  - destruct (failure_message _ _ _); [|done]. apply Forall_singleton. right. eauto.
Qed.

End EventFacts.

(** ** The claims *)

(** C1, as amended: for a text of length [L >= 1] the chunking step produces
    exactly [ceil(L / (W - O))] windows, with [W = 512] and [O = 100] (which is
    one window when [L <= O]); window [k] starts at offset [k * (W - O)], is
    the slice of at most [W] characters from there, and every position of
    [[0, L)] lies inside some window. *)
Theorem chunking_window_count_and_cover (s : pystr) :
  1 ≤ String.length s →
  length (make_chunks (PyStr s)) = ceil_div (String.length s) (max_chunk_len - overlap)
  ∧ (String.length s ≤ overlap → length (make_chunks (PyStr s)) = 1)
  ∧ (∀ k, k < length (make_chunks (PyStr s)) →
       ∃ chunk, make_chunks (PyStr s) !! k = Some chunk
         ∧ chunk = py_slice s (k * (max_chunk_len - overlap))
                              (k * (max_chunk_len - overlap) + max_chunk_len)
         ∧ String.length chunk ≤ max_chunk_len
         ∧ ∀ p, p < String.length chunk →
             String.get p chunk = String.get (k * (max_chunk_len - overlap) + p) s)
  ∧ (∀ p, p < String.length s →
       ∃ k chunk, make_chunks (PyStr s) !! k = Some chunk
         ∧ k * (max_chunk_len - overlap) ≤ p
         ∧ p < k * (max_chunk_len - overlap) + String.length chunk).
Proof.
  intros HL. pose proof (make_chunks_length s) as Hlen.
  assert (0 < max_chunk_len - overlap) as Hstride by (unfold max_chunk_len, overlap; lia).
  split; [done|]. split; [|split].
  - intros Hsmall. rewrite Hlen. unfold ceil_div.
    replace (String.length s + (max_chunk_len - overlap) - 1)
      with (1 * (max_chunk_len - overlap) + (String.length s - 1)) by lia.
    rewrite Nat.div_add_l by lia. rewrite Nat.div_small; [done|].
    unfold max_chunk_len, overlap in *. lia.
  - intros k Hk. rewrite Hlen in Hk. eexists. split; [by apply make_chunks_lookup|].
    split; [done|]. rewrite chunk_length. split; [lia|].
    intros p Hp. apply py_slice_get. lia.
  - intros p Hp.
    assert (p / (max_chunk_len - overlap) * (max_chunk_len - overlap) ≤ p) as Hlo.
    { rewrite Nat.mul_comm. apply Nat.Div0.mul_div_le. }
    assert (p < p / (max_chunk_len - overlap) * (max_chunk_len - overlap)
                + (max_chunk_len - overlap)) as Hhi.
    { pose proof (Nat.mul_succ_div_gt p (max_chunk_len - overlap)). lia. }
    assert (p / (max_chunk_len - overlap)
            < ceil_div (String.length s) (max_chunk_len - overlap)) as Hk.
    { apply lt_ceil_div; [done | lia]. }
    exists (p / (max_chunk_len - overlap)). eexists.
    split; [by apply make_chunks_lookup|].
    split; [done|]. rewrite chunk_length.
    revert Hlo Hhi. generalize (p / (max_chunk_len - overlap)). intros q Hlo Hhi.
    unfold max_chunk_len, overlap in *. lia.
Qed.

(** The count claimed in C1 fails on a text of 413 characters: the claimed
    [ceil((L - O) / (W - O))] is 1, the loop produces the windows at offsets 0
    and 412. *)
Lemma chunking_claimed_count_fails :
  1 ≤ String.length (str_repeat "a"%char 413)
  ∧ overlap < String.length (str_repeat "a"%char 413)
  ∧ ceil_div (String.length (str_repeat "a"%char 413) - overlap) (max_chunk_len - overlap) = 1
  ∧ length (make_chunks (PyStr (str_repeat "a"%char 413))) = 2
  ∧ make_chunks (PyStr (str_repeat "a"%char 413)) = [str_repeat "a"%char 413; "a"]
  ∧ length (make_chunks (PyStr (str_repeat "a"%char 413)))
    ≠ ceil_div (String.length (str_repeat "a"%char 413) - overlap) (max_chunk_len - overlap).
Proof. vm_compute. repeat split; lia. Qed.

Lemma chunking_window_count_and_cover_witness :
  1 ≤ String.length (str_repeat "a"%char 1000)
  ∧ length (make_chunks (PyStr (str_repeat "a"%char 1000))) = 3.
Proof.
  split; [rewrite str_repeat_length; lia|].
  pose proof (chunking_window_count_and_cover (str_repeat "a"%char 1000)) as H.
  destruct H as [H _]; [rewrite str_repeat_length; lia|].
  rewrite H, str_repeat_length. reflexivity.
Defined.

Section Claims.
Context {St : Type}.
Implicit Types (mc : model_components St) (w : world St).


(** C4: in the extractive path, a [pdf_text] that is [None], empty or not a
    string gets the "document appears to be empty" answer with score 0 and
    context "N/A" as a returned value, and the world is left as it was: the
    pipeline was not called and nothing was printed. *)
Theorem empty_document_short_circuit mc (question : pystr) (pdf_text : pyval) w :
  is_generative mc = false →
  pdf_text = PyNone ∨ pdf_text = PyStr "" ∨ (∃ b r, pdf_text = PyObj b r) →
  get_answer mc question pdf_text w
  = (Ret {| ans_answer := "The document appears to be empty.";
            ans_score := 0; ans_context := "N/A" |}, w)
  ∧ score_calls (trace (get_answer mc question pdf_text w).2) = score_calls (trace w)
  ∧ scorer_st (get_answer mc question pdf_text w).2 = scorer_st w.
Proof.
  intros Hmode Hdoc%make_chunks_empty_iff.
  rewrite get_answer_extractive by done.
  by rewrite extractive_answer_empty.
Qed.

(** C5: in the extractive path, when there are windows and no pooled
    candidate has a usable answer text, [get_answer] returns the "no confident
    answer" value with score 0 and context "N/A"; it does not raise. *)
Theorem no_usable_candidate_gives_sentinel mc (question : pystr) (pdf_text : pyval) w
    all_candidates w' :
  is_generative mc = false →
  make_chunks pdf_text ≠ [] →
  score_chunks (mc_pipeline mc) question (make_chunks pdf_text) w = (all_candidates, w') →
  (∀ cand d, cand ∈ all_candidates → heap w' !! cand = Some d → answer_usable d = false) →
  get_answer mc question pdf_text w
  = (Ret {| ans_answer := "Sorry, I couldn't find a confident answer in the document.";
            ans_score := 0; ans_context := "N/A" |}, w').
Proof.
  intros Hmode Hchunks Hloop Hnone.
  rewrite get_answer_extractive, extractive_answer_scored, Hloop by done. simpl.
  destruct (select_best_spec (heap w') all_candidates)
    as (_ & [[_ ->]|(i & cand & d & a & c & Hmax & Hin & Hd & Ha & Hne & _)]); [|done|].
  - intros r Hr. by eapply pooled_has_context.
  - exfalso. specialize (Hnone cand d Hin Hd).
    assert (answer_usable d = true); [|congruence].
    apply answer_usable_spec. eauto.
Qed.

(** C6: the filter keeps exactly the pooled candidates with a non-empty
    answer text, in order; a candidate whose text is empty or absent is not
    among them whatever its score, and the answer returned is one of the two
    fixed answers or built from a kept candidate, so a candidate without text
    is never returned. *)
Theorem blank_answers_are_never_selected mc (question : pystr) (pdf_text : pyval) w
    all_candidates w' :
  is_generative mc = false →
  score_chunks (mc_pipeline mc) question (make_chunks pdf_text) w = (all_candidates, w') →
  ∃ valid_candidates res,
    valid_candidates_of (heap w') all_candidates = Ret valid_candidates
    ∧ valid_candidates = omap (keep_valid (heap w')) all_candidates
    ∧ (∀ cand d, (cand, d) ∈ valid_candidates →
         heap w' !! cand = Some d ∧ ∃ a, d_answer d = Some a ∧ a ≠ "")
    ∧ (∀ cand d, heap w' !! cand = Some d →
         d_answer d = None ∨ d_answer d = Some "" →
         ∀ d', (cand, d') ∉ valid_candidates)
    ∧ get_answer mc question pdf_text w = (Ret res, w')
    ∧ ans_answer res ≠ ""
    ∧ (res = empty_document_answer
       ∨ res = no_confident_answer
       ∨ ∃ cand d a c, (cand, d) ∈ valid_candidates
           ∧ d_answer d = Some a ∧ d_context d = Some c
           ∧ res = {| ans_answer := a; ans_score := d_score d; ans_context := c |}).
Proof.
  intros Hmode Hloop.
  destruct (select_best_spec (heap w') all_candidates) as (Hvalid & Hsel).
  { intros r Hr. by eapply pooled_has_context. }
  assert (∀ cand d, (cand, d) ∈ omap (keep_valid (heap w')) all_candidates →
            heap w' !! cand = Some d ∧ ∃ a, d_answer d = Some a ∧ a ≠ "") as Hkept.
  { intros cand d (_ & Hd & Hu)%elem_of_valid. split; [done|].
    by apply answer_usable_spec. }
  assert (∀ cand d, heap w' !! cand = Some d →
            d_answer d = None ∨ d_answer d = Some "" →
            ∀ d', (cand, d') ∉ omap (keep_valid (heap w')) all_candidates) as Hdropped.
  { intros cand d Hd Hblank d' Hin. destruct (Hkept _ _ Hin) as (Hd' & a & Ha & Hne).
    assert (d' = d) as -> by congruence. destruct Hblank; congruence. }
  exists (omap (keep_valid (heap w')) all_candidates).
  rewrite get_answer_extractive by done.
  destruct (decide (make_chunks pdf_text = [])) as [Hnil|Hchunks].
  - rewrite extractive_answer_empty by done. rewrite Hnil in Hloop.
    injection Hloop as <- <-. exists empty_document_answer.
    repeat split; try done; try (by eapply Hkept). by left.
  - rewrite extractive_answer_scored, Hloop by done. simpl.
    destruct Hsel
      as [[Hnil ->]|(i & cand & d & a & c & Hmax & Hin & Hd & Ha & Hne & Hc & ->)].
    + exists no_confident_answer.
      repeat split; try done; try (by eapply Hkept). right. by left.
    + exists {| ans_answer := a; ans_score := d_score d; ans_context := c |}.
      repeat split; try done; try (by eapply Hkept).
      right. right. exists cand, d, a, c. repeat split; try done.
      destruct Hmax as (Hi & _). by eapply list_elem_of_lookup_2.
Qed.

(** C2: in the extractive path, when the filtered pool is not empty, the
    answer returned is built from the candidate of the pool with the greatest
    score, and among candidates with that score from the one met first, the
    pool being scanned in the order the windows were scored and, inside a
    window, in the order the pipeline returned its results; the answer carries
    that candidate's text, score and context. *)
Theorem best_candidate_is_first_maximum mc (question : pystr) (pdf_text : pyval) w
    all_candidates w' valid_candidates :
  is_generative mc = false →
  score_chunks (mc_pipeline mc) question (make_chunks pdf_text) w = (all_candidates, w') →
  valid_candidates_of (heap w') all_candidates = Ret valid_candidates →
  valid_candidates ≠ [] →
  all_candidates
  = concat (contributed (heap w)
              <$> run_outcomes (mc_pipeline mc) question (scorer_st w) (make_chunks pdf_text))
  ∧ valid_candidates = omap (keep_valid (heap w')) all_candidates
  ∧ ∃ i cand d a c,
      first_max (λ x, d_score x.2) valid_candidates i (cand, d)
      ∧ heap w' !! cand = Some d
      ∧ d_answer d = Some a ∧ d_context d = Some c
      ∧ get_answer mc question pdf_text w
        = (Ret {| ans_answer := a; ans_score := d_score d; ans_context := c |}, w').
Proof.
  intros Hmode Hloop Hvalid Hne.
  destruct (extractive_selected _ _ _ _ _ _ _ Hloop Hvalid Hne)
    as (Hv & i & cand & d & a & c & Hmax & _ & Hd & Ha & Hc & Hres).
  split. { rewrite score_chunks_spec in Hloop. by injection Hloop as <- _. }
  split; [done|].
  exists i, cand, d, a, c. by rewrite get_answer_extractive.
Qed.

(** C3: in the extractive path an exception raised for a window is caught:
    [get_answer] returns an answer and never raises.  Every window is scored,
    in order, whatever happened to the windows before it.  The lines printed
    are those of the failed windows, one each and in order, and the line of a
    window whose call raised holds the message of its exception.  The answer
    is computed from the results of the succeeded windows alone: it is the
    second sentinel exactly when none of them passes the filter, and else the
    text, score and context of the first candidate of greatest score among
    those that pass, which a succeeded window returned.  So when a succeeded
    window returned a candidate with an answer text, the answer comes from a
    succeeded window, whatever the other windows did. *)
Theorem scorer_failures_are_contained mc (question : pystr) (pdf_text : pyval) w :
  is_generative mc = false →
  ∃ res w' evs,
    get_answer mc question pdf_text w = (Ret res, w')
    ∧ trace w' = trace w ++ evs
    ∧ score_calls evs
      = match mc_pipeline mc with
        | Some _ => (λ chunk, QaArgs question chunk 3 true) <$> make_chunks pdf_text
        | None => []
        end
    ∧ Forall2 (λ line out, ∀ e, out = Raised e → line = "Error processing a chunk: " +:+ e)
        (printed_lines evs)
        (List.filter (λ out, negb (succeeded (heap w) out))
           (run_outcomes (mc_pipeline mc) question (scorer_st w) (make_chunks pdf_text)))
    ∧ (make_chunks pdf_text = [] ∧ res = empty_document_answer
       ∨ make_chunks pdf_text ≠ []
         ∧ omap (keep_valid (heap w'))
             (concat (contributed (heap w)
                        <$> run_outcomes (mc_pipeline mc) question (scorer_st w)
                              (make_chunks pdf_text))) = []
         ∧ res = no_confident_answer
       ∨ ∃ i k out cand d a c,
           first_max (λ x, d_score x.2)
             (omap (keep_valid (heap w'))
                (concat (contributed (heap w)
                           <$> run_outcomes (mc_pipeline mc) question (scorer_st w)
                                 (make_chunks pdf_text)))) i (cand, d)
           ∧ run_outcomes (mc_pipeline mc) question (scorer_st w) (make_chunks pdf_text) !! k
             = Some out
           ∧ succeeded (heap w) out = true
           ∧ cand ∈ returned_refs out
           ∧ d_answer d = Some a ∧ d_context d = Some c
           ∧ res = {| ans_answer := a; ans_score := d_score d; ans_context := c |})
    ∧ (∀ k out cand d,
         run_outcomes (mc_pipeline mc) question (scorer_st w) (make_chunks pdf_text) !! k
         = Some out →
         succeeded (heap w) out = true →
         cand ∈ returned_refs out →
         heap w !! cand = Some d →
         answer_usable d = true →
         omap (keep_valid (heap w'))
           (concat (contributed (heap w)
                      <$> run_outcomes (mc_pipeline mc) question (scorer_st w)
                            (make_chunks pdf_text))) ≠ []).
Proof.
  intros Hmode. rewrite get_answer_extractive by done.
  destruct (decide (make_chunks pdf_text = [])) as [Hnil|Hchunks].
  - rewrite extractive_answer_empty by done.
    exists empty_document_answer, w, []. rewrite Hnil, app_nil_r. cbn [run_outcomes].
    split; [done|]. split; [done|]. split; [by destruct (mc_pipeline mc)|].
    split; [constructor|]. split; [by left|]. intros k out cand d Hk. done.
  - rewrite extractive_answer_scored by done.
    destruct (score_chunks (mc_pipeline mc) question (make_chunks pdf_text) w)
      as [pool w'] eqn:Hloop. cbn [fst snd].
    assert (∀ r, r ∈ pool → ∃ d c, heap w' !! r = Some d ∧ d_context d = Some c) as Hpool.
    { intros r Hr. by eapply pooled_has_context. }
    rewrite score_chunks_spec in Hloop. injection Hloop as Hpool_eq Hw'.
    assert (trace w' = trace w ++ run_events (mc_pipeline mc) question (scorer_st w)
                                    (heap w) (make_chunks pdf_text)) as Htrace
      by (by rewrite <- Hw').
    assert (heap w' = run_heap (mc_pipeline mc) question (scorer_st w) (heap w)
                        (make_chunks pdf_text)) as Hheap by (by rewrite <- Hw').
    assert (∃ res,
              select_best (heap w') pool = Ret res
              ∧ (omap (keep_valid (heap w')) pool = [] ∧ res = no_confident_answer
                 ∨ ∃ i k out cand d a c,
                     first_max (λ x, d_score x.2) (omap (keep_valid (heap w')) pool)
                       i (cand, d)
                     ∧ run_outcomes (mc_pipeline mc) question (scorer_st w)
                         (make_chunks pdf_text) !! k = Some out
                     ∧ succeeded (heap w) out = true
                     ∧ cand ∈ returned_refs out
                     ∧ d_answer d = Some a ∧ d_context d = Some c
                     ∧ res = {| ans_answer := a; ans_score := d_score d;
                                ans_context := c |})) as (res & Hres & Hsel).
    { destruct (select_best_spec _ _ Hpool)
        as (_ & [[Hnone Hsel]|(i & cand & d & a & c & Hmax & Hin & Hd & Ha & _ & Hc & Hsel)]).
      - exists no_confident_answer. split; [done|]. by left.
      - eexists. split; [exact Hsel|]. right.
        rewrite <- Hpool_eq in Hin.
        apply elem_of_concat in Hin as (l & Hl & Hcand).
        apply list_elem_of_fmap in Hl as (out & -> & Hout).
        apply list_elem_of_lookup in Hout as (k & Hk).
        apply contributed_returned in Hcand as (Hcand & Hsucc).
        exists i, k, out, cand, d, a, c. done. }
    exists res, w', (run_events (mc_pipeline mc) question (scorer_st w) (heap w)
                       (make_chunks pdf_text)).
    rewrite Hres, Hpool_eq.
    split; [done|]. split; [exact Htrace|]. split; [apply run_events_calls|].
    split; [|split].
    + rewrite run_events_prints. apply failure_lines_failed.
      by rewrite run_outcomes_length.
    + destruct Hsel as [[Hnone ->]|Hsel]; [right; by left | right; by right].
    + intros k out cand d Hk Hsucc Hcand Hd Husable Hnone.
      assert (cand ∈ pool) as Hin.
      { rewrite <- Hpool_eq. apply elem_of_concat. exists (contributed (heap w) out).
        split.
        - apply list_elem_of_fmap. exists out. split; [done|].
          by eapply list_elem_of_lookup_2.
        - unfold contributed. by rewrite Hsucc. }
      destruct (Hpool cand Hin) as (d' & c & Hd' & _).
      pose proof (run_heap_value (mc_pipeline mc) question (make_chunks pdf_text)
                    (scorer_st w) (heap w) cand) as Hval.
      rewrite <- Hheap, Hd', Hd in Hval. injection Hval as Hanswer _.
      assert ((cand, d') ∈ omap (keep_valid (heap w')) pool) as Hkept.
      { apply elem_of_valid. split; [done|]. split; [done|].
        unfold answer_usable in *. by rewrite Hanswer. }
      rewrite Hnone in Hkept. by apply not_elem_of_nil in Hkept.
Qed.

(** The generative path, call by call: the first call that raises ends it,
    after the calls before it were made. *)
Lemma generative_answer_cases (model : gen_model) (tok : tokenizer) (question : pystr)
    (pdf_text : pyval) w :
  (∃ e,
      tok_encode tok (prompt_of question pdf_text) 1024 true = Raise e
      ∧ generative_answer model (Some tok) question pdf_text w
        = (Raise e, emit [EvTokenize (prompt_of question pdf_text) 1024 true] w))
  ∨ ∃ inputs,
      tok_encode tok (prompt_of question pdf_text) 1024 true = Ret inputs
      ∧ ((∃ e,
             gen_generate model inputs 200 4 true = Raise e
             ∧ generative_answer model (Some tok) question pdf_text w
               = (Raise e, emit [EvTokenize (prompt_of question pdf_text) 1024 true;
                                 EvGenerate inputs 200 4 true] w))
         ∨ ∃ outputs0,
             gen_generate model inputs 200 4 true = Ret outputs0
             ∧ ((∃ e,
                    tok_decode tok outputs0 = Raise e
                    ∧ generative_answer model (Some tok) question pdf_text w
                      = (Raise e, emit [EvTokenize (prompt_of question pdf_text) 1024 true;
                                        EvGenerate inputs 200 4 true;
                                        EvDecode outputs0] w))
                ∨ ∃ answer,
                    tok_decode tok outputs0 = Ret answer
                    ∧ generative_answer model (Some tok) question pdf_text w
                      = (Ret {| ans_answer := if str_truthy answer then answer
                                              else "FLAN-T5 could not generate an answer.";
                                ans_score := 1;
                                ans_context := "Answer was generated, not extracted. The model used the full document as context." |},
                         emit [EvTokenize (prompt_of question pdf_text) 1024 true;
                               EvGenerate inputs 200 4 true; EvDecode outputs0] w))).
Proof.
  unfold generative_answer, st_spinner. fold (prompt_of question pdf_text).
  destruct (tok_encode tok _ 1024 true) as [inputs|e]; [right|left; eauto].
  exists inputs. split; [done|].
  destruct (gen_generate model inputs 200 4 true) as [outputs0|e]; [right|left; eauto].
  exists outputs0. split; [done|].
  destruct (tok_decode tok outputs0) as [answer|e]; [right|left]; eauto.
Qed.

Lemma get_answer_generative mc question pdf_text w :
  is_generative mc = true →
  ∃ model, mc_model mc = Some model
    ∧ get_answer mc question pdf_text w
      = generative_answer model (mc_tokenizer mc) question pdf_text w.
Proof.
  unfold is_generative, get_answer. destruct (mc_model mc) as [model|]; [|done].
  intros ->. eauto.
Qed.

(** An answer the generative path returns has score 1.0 and a text. *)
Lemma generative_answer_returned (model : gen_model) tok (question : pystr)
    (pdf_text : pyval) w answer w' :
  generative_answer model tok question pdf_text w = (Ret answer, w') →
  ans_score answer = 1%Q ∧ ans_answer answer ≠ "".
Proof.
  destruct tok as [tok|]; [|done].
  destruct (generative_answer_cases model tok question pdf_text w)
    as [(e & _ & ->)|(inputs & _ & [(e & _ & ->)|(outputs0 & _
        & [(e & _ & ->)|(text & _ & ->)])])]; try done.
  intros [= <- _]. cbn [ans_score ans_answer]. split; [done|].
  destruct (str_truthy text) eqn:Ht; [|done].
  unfold str_truthy in Ht. apply negb_true_iff, Nat.eqb_neq in Ht.
  by rewrite empty_string_length in Ht.
Qed.




Lemma generative_events_calls (evs : list event) :
  Forall (λ ev, (∃ text, ev = EvTokenize text 1024 true)
                ∨ (∃ inputs, ev = EvGenerate inputs 200 4 true)
                ∨ (∃ output, ev = EvDecode output)) evs →
  score_calls evs = [] ∧ printed_lines evs = [].
Proof.
  induction 1 as [|ev evs [[? ->]|[[? ->]|[? ->]]] _ IH]; [done|exact IH..].
Qed.

(** What the generative path does to the world, and that its result does
    not depend on the world. *)
Lemma generative_answer_effects (model : gen_model) (tok : option tokenizer)
    (question : pystr) (pdf_text : pyval) w :
  ∃ evs,
    Forall (λ ev, (∃ text, ev = EvTokenize text 1024 true)
                  ∨ (∃ inputs, ev = EvGenerate inputs 200 4 true)
                  ∨ (∃ output, ev = EvDecode output)) evs
    ∧ ∀ w0 : world St,
        generative_answer model tok question pdf_text w0
        = ((generative_answer model tok question pdf_text w).1,
           {| scorer_st := scorer_st w0; heap := heap w0; trace := trace w0 ++ evs |}).
Proof.
  destruct tok as [tok|].
  - unfold generative_answer, st_spinner, emit.
    destruct (tok_encode tok _ 1024 true) as [inputs|e];
      [destruct (gen_generate model inputs 200 4 true) as [outputs0|e];
       [destruct (tok_decode tok outputs0) as [answer|e]|]|];
      (eexists; split; [|intros w0; reflexivity]);
      repeat (constructor; [eauto|]); constructor.
  - exists []. split; [constructor|]. intros w0. cbn. rewrite app_nil_r.
    by destruct w0.
Qed.

(** C8: two invocations with the same question and text, the second started
    in the world the first one left, return the same result, in the
    generative mode always and in the extractive mode when the outcome of a
    pipeline call, objects included, is a function of the arguments, or when
    the values it returns depend on the arguments only and no object is
    handed back twice in a run.  An invocation changes the world by the calls
    it makes and the lines it prints for failed windows, whose events are
    added to the trace, by the state the pipeline is left in, and in the
    store by the context it writes into the dicts the pipeline calls handed
    back: each object is as it was or has the text of such a window as its
    context, no object appears or disappears and no answer or score
    changes. *)
Theorem get_answer_is_deterministic mc (question : pystr) (pdf_text : pyval) w
    res1 w1 res2 w2 :
  (is_generative mc = false →
   repeatable (mc_pipeline mc)
   ∨ (deterministic (heap w) (mc_pipeline mc)
      ∧ alias_free (mc_pipeline mc) question (scorer_st w) (make_chunks pdf_text)
      ∧ alias_free (mc_pipeline mc) question (scorer_st w1) (make_chunks pdf_text))) →
  get_answer mc question pdf_text w = (res1, w1) →
  get_answer mc question pdf_text w1 = (res2, w2) →
  res1 = res2
  ∧ scorer_st w1
    = (if is_generative mc then scorer_st w
       else run_state (mc_pipeline mc) question (scorer_st w) (make_chunks pdf_text))
  ∧ (∃ evs,
       trace w1 = trace w ++ evs
       ∧ Forall (λ ev, if is_generative mc
                       then (∃ text, ev = EvTokenize text 1024 true)
                            ∨ (∃ inputs, ev = EvGenerate inputs 200 4 true)
                            ∨ (∃ output, ev = EvDecode output)
                       else (∃ args, ev = EvScore args)
                            ∨ (∃ e, ev = EvPrint ("Error processing a chunk: " +:+ e)))
           evs
       ∧ score_calls evs
         = (if is_generative mc then []
            else match mc_pipeline mc with
                 | Some _ => (λ chunk, QaArgs question chunk 3 true) <$> make_chunks pdf_text
                 | None => []
                 end))
  ∧ (∀ r, cand_value <$> heap w1 !! r = cand_value <$> heap w !! r
          ∧ (heap w1 !! r = heap w !! r
             ∨ is_generative mc = false
               ∧ ∃ k chunk out,
                   make_chunks pdf_text !! k = Some chunk
                   ∧ run_outcomes (mc_pipeline mc) question (scorer_st w)
                       (make_chunks pdf_text) !! k = Some out
                   ∧ r ∈ returned_refs out
                   ∧ heap w1 !! r = set_context chunk <$> heap w !! r)).
Proof.
  intros Hdet Hrun1 Hrun2. destruct (is_generative mc) eqn:Hmode.
  - destruct (get_answer_generative mc question pdf_text w Hmode) as (model & Hmodel & Hgen).
    destruct (get_answer_generative mc question pdf_text w1 Hmode)
      as (model' & Hmodel' & Hgen').
    assert (model' = model) as -> by congruence.
    destruct (generative_answer_effects model (mc_tokenizer mc) question pdf_text w)
      as (evs & Hkinds & Heff).
    rewrite Hgen, (Heff w) in Hrun1. rewrite Hgen', (Heff w1) in Hrun2.
    injection Hrun1 as <- <-. injection Hrun2 as <- _. cbn [scorer_st heap trace].
    split; [done|]. split; [done|]. split; [|intros r; split; [done|by left]].
    exists evs. split; [done|]. split; [done|].
    by apply generative_events_calls.
  - specialize (Hdet eq_refl).
    rewrite get_answer_extractive in Hrun1, Hrun2 by done.
    assert (w1 = (score_chunks (mc_pipeline mc) question (make_chunks pdf_text) w).2) as Hw1.
    { unfold extractive_answer, st_spinner in Hrun1.
      destruct (make_chunks pdf_text); [by injection Hrun1 as _ <-|].
      destruct (score_chunks _ _ _ _). by injection Hrun1 as _ <-. }
    rewrite score_chunks_spec in Hw1. cbn [snd] in Hw1.
    assert (∀ r, cand_value <$> heap w1 !! r = cand_value <$> heap w !! r) as Hval.
    { intros r. rewrite Hw1. apply run_heap_value. }
    split; [|split; [|split]].
    + destruct (decide (make_chunks pdf_text = [])) as [Hnil|Hchunks].
      * rewrite extractive_answer_empty in Hrun1, Hrun2 by done. congruence.
      * rewrite extractive_answer_scored in Hrun1, Hrun2 by done.
        injection Hrun1 as <- _. injection Hrun2 as <- _.
        rewrite !score_chunks_spec. cbn [fst snd heap].
        apply select_best_values.
        destruct Hdet as [Hrep|(Hdet & Hfree1 & Hfree2)].
        -- rewrite Hw1. cbn [heap scorer_st].
           erewrite (list_fmap_ext (contributed (run_heap _ _ _ _ _)));
             [|intros _ o _; apply contributed_is_dict; intros r; apply run_heap_is_dict].
           rewrite (repeatable_outcomes _ _ _
                      (run_state (mc_pipeline mc) question (scorer_st w)
                         (make_chunks pdf_text))
                      (scorer_st w)) by done.
           apply list_fmap_ext. intros _ r _. symmetry. by apply repeatable_heap.
        -- rewrite (run_dicts_spec _ _ _ _ _ Hfree1), (run_dicts_spec _ _ _ _ _ Hfree2).
           by apply run_dicts_values.
    + by rewrite Hw1.
    + eexists. split; [by rewrite Hw1|].
      split; [apply run_events_kinds | apply run_events_calls].
    + intros r. split; [done|]. rewrite Hw1. cbn [heap].
      destruct (run_heap_lookup (mc_pipeline mc) question (make_chunks pdf_text)
                  (scorer_st w) (heap w) r)
        as [[Heq _]|(k & chunk & out & Hk & Hout & Hin & Hset)]; [by left|].
      right. split; [done|]. eauto 10.
Qed.

End Claims.

(** *** The claims at concrete inputs *)

Lemma empty_document_short_circuit_witness :
  get_answer moon_components moon_question PyNone (start_world moon_store)
  = (Ret {| ans_answer := "The document appears to be empty.";
            ans_score := 0; ans_context := "N/A" |}, start_world moon_store)
  ∧ score_calls (trace (get_answer moon_components moon_question PyNone
                          (start_world moon_store)).2)
    = score_calls (trace (start_world moon_store))
  ∧ scorer_st (get_answer moon_components moon_question PyNone (start_world moon_store)).2
    = scorer_st (start_world moon_store).
Proof.
  apply (empty_document_short_circuit moon_components moon_question PyNone
           (start_world moon_store)); [reflexivity | by left].
Defined.

Lemma no_usable_candidate_gives_sentinel_witness :
  get_answer silent_components moon_question (PyStr doc_abc) (start_world blank_store)
  = (Ret {| ans_answer := "Sorry, I couldn't find a confident answer in the document.";
            ans_score := 0; ans_context := "N/A" |},
     (score_chunks (mc_pipeline silent_components) moon_question
        (make_chunks (PyStr doc_abc)) (start_world blank_store)).2).
Proof.
  apply (no_usable_candidate_gives_sentinel silent_components moon_question
           (PyStr doc_abc) (start_world blank_store) [3]).
  - reflexivity.
  - vm_compute. discriminate.
  - vm_compute. reflexivity.
  - intros cand d ->%list_elem_of_singleton. vm_compute. by intros [= <-].
Defined.

Example make_chunks_abc :
  make_chunks (PyStr doc_abc) = [abc_window_0; abc_window_1; abc_window_2].
Proof. vm_compute. reflexivity. Qed.

(** Scores 0.2, 0.9 and 0.5 across three windows: the answer is the one with
    score 0.9, with the text of the second window as its context. *)
Example moon_answer :
  (get_answer moon_components moon_question (PyStr doc_abc) (start_world moon_store)).1
  = Ret {| ans_answer := "the Moon"; ans_score := 9 # 10; ans_context := abc_window_1 |}.
Proof. vm_compute. reflexivity. Qed.

(** The candidate with score 0.99 has no text: the answer is still the one
    with score 0.9. *)
Example blank_answer :
  (get_answer blank_components moon_question (PyStr doc_abc) (start_world blank_store)).1
  = Ret {| ans_answer := "the Moon"; ans_score := 9 # 10; ans_context := abc_window_1 |}.
Proof. vm_compute. reflexivity. Qed.

Lemma blank_answers_are_never_selected_witness :
  ∃ res,
    (get_answer blank_components moon_question (PyStr doc_abc) (start_world blank_store)).1
    = Ret res
    ∧ ans_answer res ≠ ""
    ∧ ∀ d, (3, d) ∉ omap (keep_valid
                            (heap (score_chunks (mc_pipeline blank_components) moon_question
                                     (make_chunks (PyStr doc_abc))
                                     (start_world blank_store)).2))
                      [3; 0; 1; 2].
Proof.
  destruct (blank_answers_are_never_selected blank_components moon_question
              (PyStr doc_abc) (start_world blank_store) [3; 0; 1; 2]
              (score_chunks (mc_pipeline blank_components) moon_question
                 (make_chunks (PyStr doc_abc)) (start_world blank_store)).2)
    as (valid & res & _ & -> & _ & Hdropped & Hres & Hne & _).
  - reflexivity.
  - vm_compute. reflexivity.
  - exists res. rewrite Hres. split; [done|]. split; [done|].
    apply (Hdropped 3 (PyDict (Some "") (99 # 100) (Some abc_window_0))).
    + vm_compute. reflexivity.
    + by right.
Defined.

Lemma best_candidate_is_first_maximum_witness :
  ∃ i cand d a c,
    first_max (λ x, d_score x.2)
      [(0, PyDict (Some "Luna") (2 # 10) (Some abc_window_0));
       (1, PyDict (Some "the Moon") (9 # 10) (Some abc_window_1));
       (2, PyDict (Some "Selene") (5 # 10) (Some abc_window_2))] i (cand, d)
    ∧ d_answer d = Some a ∧ d_context d = Some c
    ∧ (get_answer moon_components moon_question (PyStr doc_abc) (start_world moon_store)).1
      = Ret {| ans_answer := a; ans_score := d_score d; ans_context := c |}.
Proof.
  destruct (best_candidate_is_first_maximum moon_components moon_question
              (PyStr doc_abc) (start_world moon_store) [0; 1; 2]
              (score_chunks (mc_pipeline moon_components) moon_question
                 (make_chunks (PyStr doc_abc)) (start_world moon_store)).2
              [(0, PyDict (Some "Luna") (2 # 10) (Some abc_window_0));
               (1, PyDict (Some "the Moon") (9 # 10) (Some abc_window_1));
               (2, PyDict (Some "Selene") (5 # 10) (Some abc_window_2))])
    as (_ & _ & i & cand & d & a & c & Hmax & _ & Ha & Hc & Hres).
  - reflexivity.
  - vm_compute. reflexivity.
  - vm_compute. reflexivity.
  - discriminate.
  - exists i, cand, d, a, c. by rewrite Hres.
Defined.

(** Equal scores in the first and third window: the first one is returned. *)
Example tie_answer :
  (get_answer moon_components moon_question (PyStr doc_abc) (start_world tie_store)).1
  = Ret {| ans_answer := "Luna"; ans_score := 9 # 10; ans_context := abc_window_0 |}.
Proof. vm_compute. reflexivity. Qed.

(** A result that is not a dict makes its window fail: nothing of the window
    is pooled, although its first result has the greater score. *)
Example odd_answer :
  (get_answer odd_components moon_question (PyStr doc_abc) (start_world moon_store)).1
  = Ret {| ans_answer := "Luna"; ans_score := 2 # 10; ans_context := abc_window_1 |}
  ∧ printed_lines
      (trace (get_answer odd_components moon_question (PyStr doc_abc)
                (start_world moon_store)).2)
    = ["Error processing a chunk: 'str' object does not support item assignment"].
Proof. vm_compute. done. Qed.

(** Three windows, the call for the second one raises: the answer comes from
    the third window, and the failure is printed. *)
Example flaky_answer :
  (get_answer flaky_components moon_question (PyStr doc_abc) (start_world moon_store)).1
  = Ret {| ans_answer := "Selene"; ans_score := 5 # 10; ans_context := abc_window_2 |}
  ∧ printed_lines
      (trace (get_answer flaky_components moon_question (PyStr doc_abc)
                (start_world moon_store)).2)
    = ["Error processing a chunk: CUDA out of memory"].
Proof. vm_compute. done. Qed.

Lemma scorer_failures_are_contained_witness :
  ∃ res w',
    get_answer flaky_components moon_question (PyStr doc_abc) (start_world moon_store)
    = (Ret res, w')
    ∧ res = {| ans_answer := "Selene"; ans_score := 5 # 10; ans_context := abc_window_2 |}
    ∧ score_calls (trace w')
      = [QaArgs moon_question abc_window_0 3 true;
         QaArgs moon_question abc_window_1 3 true;
         QaArgs moon_question abc_window_2 3 true]
    ∧ printed_lines (trace w') = ["Error processing a chunk: CUDA out of memory"].
Proof.
  destruct (scorer_failures_are_contained flaky_components moon_question
              (PyStr doc_abc) (start_world moon_store))
    as (res & w' & evs & Hres & Htrace & Hcalls & _); [reflexivity|].
  exists res, w'. split; [exact Hres|].
  pose proof Hres as Hrun. vm_compute in Hrun. injection Hrun as Hr Hw.
  split; [by rewrite <- Hr|]. split.
  - rewrite Htrace. cbn [start_world trace app]. rewrite Hcalls. vm_compute. reflexivity.
  - rewrite <- Hw. vm_compute. reflexivity.
Defined.




(** The same object handed back for two windows carries the text of the
    later one. *)
Example sharing_answer :
  (get_answer sharing_components moon_question (PyStr doc_abc) (start_world moon_store)).1
  = Ret {| ans_answer := "the Moon"; ans_score := 9 # 10; ans_context := abc_window_1 |}.
Proof. vm_compute. reflexivity. Qed.



Lemma rotating_deterministic : deterministic rotating_store (Some rotating).
Proof.
  intros question chunk st1 st2. unfold call_outcome, rotating. cbn [snd].
  pose proof (Nat.mod_upper_bound st1 3) as H1.
  pose proof (Nat.mod_upper_bound st2 3) as H2.
  destruct (st1 mod 3) as [|[|[|k1]]]; [| | |lia];
    destruct (st2 mod 3) as [|[|[|k2]]]; try lia;
    destruct (String.length _ =? 512); reflexivity.
Qed.

Lemma get_answer_is_deterministic_witness :
  (get_answer (extractive_components rotating) moon_question (PyStr doc_512)
     (start_world rotating_store)).1
  = (get_answer (extractive_components rotating) moon_question (PyStr doc_512)
       (get_answer (extractive_components rotating) moon_question (PyStr doc_512)
          (start_world rotating_store)).2).1
  ∧ (get_answer (extractive_components constant_pipeline) moon_question (PyStr doc_512)
       (start_world rotating_store)).1
    = (get_answer (extractive_components constant_pipeline) moon_question (PyStr doc_512)
         (get_answer (extractive_components constant_pipeline) moon_question
            (PyStr doc_512) (start_world rotating_store)).2).1.
Proof.
  split.
  - eapply (get_answer_is_deterministic (extractive_components rotating) moon_question
              (PyStr doc_512) (start_world rotating_store) _
              (get_answer (extractive_components rotating) moon_question (PyStr doc_512)
                 (start_world rotating_store)).2).
    + intros _. right. split; [exact rotating_deterministic|].
      split; unfold alias_free; apply (bool_decide_unpack _); vm_compute; exact I.
    + apply surjective_pairing.
    + apply surjective_pairing.
  - eapply (get_answer_is_deterministic (extractive_components constant_pipeline)
              moon_question (PyStr doc_512) (start_world rotating_store)).
    + intros _. left. intros question chunk st1 st2. reflexivity.
    + apply surjective_pairing.
    + apply surjective_pairing.
Defined.

(** A scorer whose values depend on its arguments only, but which hands the
    same dict back for several calls: the second invocation returns another
    context than the first.  And the first invocation has written into the
    dicts of the scorer. *)
Lemma deterministic_scorer_can_answer_differently :
  deterministic rotating_store (Some recycling)
  ∧ (get_answer (extractive_components recycling) moon_question (PyStr doc_512)
       (start_world rotating_store)).1
    = Ret {| ans_answer := "the Moon"; ans_score := 9 # 10; ans_context := doc_512 |}
  ∧ (get_answer (extractive_components recycling) moon_question (PyStr doc_512)
       (get_answer (extractive_components recycling) moon_question (PyStr doc_512)
          (start_world rotating_store)).2).1
    = Ret {| ans_answer := "the Moon"; ans_score := 9 # 10;
             ans_context := str_repeat "a"%char 100 |}
  ∧ doc_512 ≠ str_repeat "a"%char 100
  ∧ rotating_store !! 10 = Some (PyDict (Some "the Moon") (9 # 10) None)
  ∧ heap (get_answer (extractive_components recycling) moon_question (PyStr doc_512)
            (start_world rotating_store)).2 !! 10
    = Some (PyDict (Some "the Moon") (9 # 10) (Some doc_512)).
Proof.
  split.
  { intros question chunk st1 st2. unfold call_outcome, recycling. cbn [snd].
    destruct (st1 =? 0), (st2 =? 0); reflexivity. }
  split; [vm_compute; reflexivity|]. split; [vm_compute; reflexivity|]. split.
  - intros Heq. apply (f_equal (String.get 100)) in Heq. vm_compute in Heq. discriminate.
  - split; vm_compute; reflexivity.
Qed.

(** ** More facts about strings *)

Lemma str_app_nil_l (s : pystr) : "" +:+ s = s.
Proof. reflexivity. Qed.

Lemma str_app_cons c (s t : pystr) : String c s +:+ t = String c (s +:+ t).
Proof. reflexivity. Qed.

Lemma str_app_nil_r (s : pystr) : s +:+ "" = s.
Proof. induction s as [|c s IH]; [done|]. by rewrite str_app_cons, IH. Qed.

Lemma str_app_assoc (s1 s2 s3 : pystr) : (s1 +:+ s2) +:+ s3 = s1 +:+ (s2 +:+ s3).
Proof. induction s1 as [|c s1 IH]; [done|]. by rewrite !str_app_cons, IH. Qed.

Lemma str_app_length (s1 s2 : pystr) :
  String.length (s1 +:+ s2) = String.length s1 + String.length s2.
Proof. induction s1 as [|c s1 IH]; [done|]. rewrite str_app_cons. simpl. by rewrite IH. Qed.

Lemma str_app_inv_head (s a b : pystr) : s +:+ a = s +:+ b → a = b.
Proof.
  induction s as [|c s IH]; [done|]. rewrite !str_app_cons. intros [= H]. by apply IH.
Qed.

Lemma str_app_inv_tail (a b t : pystr) : a +:+ t = b +:+ t → a = b.
Proof.
  revert b. induction a as [|c a IH]; intros [|c' b] H.
  - done.
  - apply (f_equal String.length) in H. rewrite !str_app_length in H. simpl in H. lia.
  - apply (f_equal String.length) in H. rewrite !str_app_length in H. simpl in H. lia.
  - rewrite !str_app_cons in H. injection H as -> H. f_equal. by apply IH.
Qed.

Lemma substring_empty n m : String.substring n m "" = "".
Proof. by destruct n, m. Qed.

(** A slice of a slice is a slice of the text. *)
Lemma substring_substring (s : pystr) i m a n :
  a + n ≤ m →
  String.substring a n (String.substring i m s) = String.substring (i + a) n s.
Proof.
  revert i m a n. induction s as [|c s IH]; intros i m a n Hle.
  - by rewrite !substring_empty.
  - destruct i as [|i]; [|simpl; by apply IH].
    destruct m as [|m].
    + assert (a = 0 ∧ n = 0) as [-> ->] by lia. done.
    + cbn [String.substring]. destruct a as [|a].
      * destruct n as [|n]; [done|]. cbn [String.substring Nat.add]. f_equal.
        apply (IH 0 m 0 n). lia.
      * cbn [String.substring Nat.add]. apply (IH 0 m a n). lia.
Qed.

(** ** Spans of the text and the overlap of the windows *)

(** X1. The overlap of 100 characters is what keeps short answers whole:
    every span of at most 101 characters of the text lies entirely inside a
    single window, at the offset its position gives, and reads there as it
    does in the text.  The bound is tight: as soon as the text is longer than
    one window, the span of 102 characters starting at position 411 lies
    inside no window. *)
Theorem short_spans_fit_in_one_window (s : pystr) :
  (∀ p n, 0 < n → n ≤ overlap + 1 → p + n ≤ String.length s →
     ∃ k chunk,
       make_chunks (PyStr s) !! k = Some chunk
       ∧ k * (max_chunk_len - overlap) ≤ p
       ∧ p + n ≤ k * (max_chunk_len - overlap) + String.length chunk
       ∧ py_slice chunk (p - k * (max_chunk_len - overlap))
                        (p - k * (max_chunk_len - overlap) + n)
         = py_slice s p (p + n))
  ∧ (max_chunk_len < String.length s →
     ∀ k chunk,
       make_chunks (PyStr s) !! k = Some chunk →
       ¬ (k * (max_chunk_len - overlap) ≤ max_chunk_len - overlap - 1
          ∧ max_chunk_len - overlap - 1 + (overlap + 2)
            ≤ k * (max_chunk_len - overlap) + String.length chunk)).
Proof.
  split.
  - intros p n Hn Hshort Hin.
    assert (0 < max_chunk_len - overlap) as Hstride by (unfold max_chunk_len, overlap; lia).
    assert (p / (max_chunk_len - overlap) * (max_chunk_len - overlap) ≤ p) as Hlo.
    { rewrite Nat.mul_comm. apply Nat.Div0.mul_div_le. }
    assert (p < p / (max_chunk_len - overlap) * (max_chunk_len - overlap)
                + (max_chunk_len - overlap)) as Hhi.
    { pose proof (Nat.mul_succ_div_gt p (max_chunk_len - overlap)). lia. }
    assert (p / (max_chunk_len - overlap)
            < ceil_div (String.length s) (max_chunk_len - overlap)) as Hk.
    { apply lt_ceil_div; [done | lia]. }
    exists (p / (max_chunk_len - overlap)). eexists.
    split; [by apply make_chunks_lookup|]. rewrite chunk_length.
    revert Hlo Hhi. generalize (p / (max_chunk_len - overlap)). intros k Hlo Hhi.
    split; [done|]. split; [unfold max_chunk_len, overlap in *; lia|].
    unfold py_slice.
    replace (p - k * (max_chunk_len - overlap) + n - (p - k * (max_chunk_len - overlap)))
      with n by lia.
    replace (p + n - p) with n by lia.
    rewrite substring_substring by (unfold max_chunk_len, overlap in *; lia).
    f_equal. lia.
  - intros Hlong k chunk Hk [Hlo Hhi].
    destruct (make_chunks_inv _ _ _ Hk) as (s' & [= <-] & _ & ->).
    rewrite chunk_length in Hhi. unfold max_chunk_len, overlap in *.
    destruct k as [|k]; lia.
Qed.

(** ** What [get_answer] returns, whatever the path *)

Section AnswerFacts.
Context {St : Type}.
Implicit Types (mc : model_components St) (w : world St).

(** The extractive path returns one of the two fixed answers or the text,
    score and context of a pooled dict, whose answer and score are those it
    had before the call. *)
Lemma extractive_answer_cases (qa_pipeline : option (pipeline St)) question pdf_text w :
  ∃ res,
    extractive_answer qa_pipeline question pdf_text w
    = (Ret res, (score_chunks qa_pipeline question (make_chunks pdf_text) w).2)
    ∧ (res = empty_document_answer ∧ make_chunks pdf_text = []
       ∨ res = no_confident_answer ∧ make_chunks pdf_text ≠ []
       ∨ ∃ cand d a,
           make_chunks pdf_text ≠ []
           ∧ heap w !! cand = Some d
           ∧ d_answer d = Some a ∧ a ≠ ""
           ∧ ans_answer res = a ∧ ans_score res = d_score d).
Proof.
  destruct (decide (make_chunks pdf_text = [])) as [Hnil|Hchunks].
  - exists empty_document_answer. rewrite extractive_answer_empty by done.
    rewrite Hnil. split; [done|]. by left.
  - rewrite extractive_answer_scored by done.
    destruct (score_chunks qa_pipeline question (make_chunks pdf_text) w)
      as [pool w'] eqn:Hloop. cbn [fst snd].
    destruct (select_best_spec (heap w') pool)
      as (_ & [[_ ->]|(i & cand & d & a & c & _ & Hin & Hd & Ha & Hne & Hc & ->)]).
    + intros r Hr. by eapply pooled_has_context.
    + exists no_confident_answer. split; [done|]. right. by left.
    + eexists. split; [done|]. right. right.
      rewrite score_chunks_spec in Hloop. injection Hloop as _ <-. cbn [heap] in Hd.
      pose proof (run_heap_value qa_pipeline question (make_chunks pdf_text)
                    (scorer_st w) (heap w) cand) as Hval.
      rewrite Hd in Hval. destruct (heap w !! cand) as [d0|] eqn:Hd0; [|done].
      injection Hval as Hanswer Hscore.
      exists cand, d0, a. repeat split; try done; simpl; congruence.
Qed.

(** [get_answer] raises only in the generative mode: for want of a
    tokenizer, or with what the tokenizer or the model raises. *)
Lemma get_answer_raises mc question pdf_text w e w' :
  get_answer mc question pdf_text w = (Raise e, w') →
  ∃ model,
    mc_model mc = Some model ∧ is_generative mc = true
    ∧ (mc_tokenizer mc = None
       ∨ ∃ tok,
           mc_tokenizer mc = Some tok
           ∧ (tok_encode tok (prompt_of question pdf_text) 1024 true = Raise e
              ∨ ∃ inputs,
                  tok_encode tok (prompt_of question pdf_text) 1024 true = Ret inputs
                  ∧ (gen_generate model inputs 200 4 true = Raise e
                     ∨ ∃ outputs0,
                         gen_generate model inputs 200 4 true = Ret outputs0
                         ∧ tok_decode tok outputs0 = Raise e))).
Proof.
  intros Hrun. destruct (is_generative mc) eqn:Hmode.
  - destruct (get_answer_generative mc question pdf_text w Hmode) as (model & Hmodel & Hgen).
    exists model. split; [done|]. split; [done|]. rewrite Hgen in Hrun.
    destruct (mc_tokenizer mc) as [tok|]; [right|by left].
    exists tok. split; [done|].
    destruct (generative_answer_cases model tok question pdf_text w)
      as [(e' & He & Hr)|(inputs & Hin & [(e' & He & Hr)|(outputs0 & Hout
          & [(e' & He & Hr)|(text & Ht & Hr)])])];
      rewrite Hr in Hrun; try done; injection Hrun as <- _; eauto 10.
  - rewrite get_answer_extractive in Hrun by done.
    destruct (extractive_answer_cases (mc_pipeline mc) question pdf_text w)
      as (res & Hres & _). congruence.
Qed.

(** A store whose scores pass the boolean range check has them in range. *)
Lemma scores_between_checked (h : store) (lo hi : Q) :
  map_Forall (λ _ d, Qle_bool lo (d_score d) && Qle_bool (d_score d) hi = true) h →
  ∀ r d, h !! r = Some d → (lo <= d_score d)%Q ∧ (d_score d <= hi)%Q.
Proof.
  intros Hall r d Hd. specialize (Hall r d Hd). cbv beta in Hall.
  apply andb_prop in Hall as [H1 H2]. by rewrite <- !Qle_bool_iff.
Qed.

(** X2. The score of a returned answer stays within the range of the scores
    the pipeline's candidates carry: whenever [get_answer] returns and every
    candidate object has a score between [lo] and [hi], with [lo <= 0] and
    [1 <= hi] so that the fixed scores 0.0 of the two sentinel answers and
    1.0 of the generative answer are covered, the returned score lies between
    [lo] and [hi].  The returned answer text is never the empty string, and
    in generative mode the score is exactly 1.0.  In particular scores in
    [0, 1] give a score in [0, 1], which the app prints as a percentage. *)
Theorem answer_score_within_candidate_range mc (question : pystr) (pdf_text : pyval) w
    res w' (lo hi : Q) :
  get_answer mc question pdf_text w = (Ret res, w') →
  (lo <= 0)%Q → (1 <= hi)%Q →
  (∀ r d, heap w !! r = Some d → (lo <= d_score d)%Q ∧ (d_score d <= hi)%Q) →
  (lo <= ans_score res)%Q ∧ (ans_score res <= hi)%Q
  ∧ ans_answer res ≠ ""
  ∧ (is_generative mc = true → ans_score res = 1%Q).
Proof.
  intros Hrun Hlo Hhi Hstore.
  assert ((lo <= 1)%Q ∧ (0 <= hi)%Q) as [Hlo1 Hhi0].
  { split; [eapply Qle_trans; [exact Hlo | done]
           | eapply Qle_trans; [|exact Hhi]; done]. }
  destruct (is_generative mc) eqn:Hmode.
  - destruct (get_answer_generative mc question pdf_text w Hmode) as (model & _ & Hgen).
    rewrite Hgen in Hrun.
    destruct (generative_answer_returned _ _ _ _ _ _ _ Hrun) as [Hscore Htext].
    rewrite Hscore. done.
  - rewrite get_answer_extractive in Hrun by done.
    destruct (extractive_answer_cases (mc_pipeline mc) question pdf_text w)
      as (res' & Hres & Hcases).
    rewrite Hres in Hrun. injection Hrun as <- _.
    destruct Hcases as [[-> _]|[[-> _]|(cand & d & a & _ & Hd & _ & Hne & Ha & Hs)]].
    + repeat split; done.
    + repeat split; done.
    + rewrite Ha, Hs. destruct (Hstore _ _ Hd). repeat split; done.
Qed.

End AnswerFacts.

Lemma answer_score_within_candidate_range_witness :
  ∃ res,
    (get_answer moon_components moon_question (PyStr doc_abc) (start_world moon_store)).1
    = Ret res
    ∧ (0 <= ans_score res)%Q ∧ (ans_score res <= 1)%Q ∧ ans_answer res ≠ "".
Proof.
  eexists. split; [vm_compute; reflexivity|].
  destruct (answer_score_within_candidate_range moon_components moon_question
              (PyStr doc_abc) (start_world moon_store)
              {| ans_answer := "the Moon"; ans_score := 9 # 10;
                 ans_context := abc_window_1 |}
              (get_answer moon_components moon_question (PyStr doc_abc)
                 (start_world moon_store)).2 0 1) as (Hlo & Hhi & Hne & _).
  - vm_compute. reflexivity.
  - vm_compute. discriminate.
  - vm_compute. discriminate.
  - apply scores_between_checked. apply (bool_decide_unpack _). vm_compute. exact I.
  - auto.
Defined.

(** ** Reading the text of a PDF *)

Lemma extract_pages_spec (pages : list pdf_page) (text : pystr) :
  forallb page_ok pages = true →
  extract_pages pages text = Ret (text +:+ join_lines (page_texts pages)).
Proof.
  revert text. induction pages as [|page rest IH]; intros text Hok.
  - simpl. by rewrite str_app_nil_r.
  - simpl in Hok. apply andb_prop in Hok as [Hpage Hrest].
    destruct page as [[t|]|e]; [| |done]; cbn [extract_pages]; rewrite IH by done.
    + unfold page_texts. cbn [omap list_omap]. destruct (str_truthy t); [|done].
      cbn [join_lines foldr]. by rewrite !str_app_assoc.
    + done.
Qed.

Lemma extract_pages_raises (pages : list pdf_page) (text : pystr) :
  forallb page_ok pages = false → ∃ e, extract_pages pages text = Raise e.
Proof.
  revert text. induction pages as [|page rest IH]; intros text Hbad; [done|].
  destruct page as [page_text|e]; [|by eexists].
  simpl in Hbad. cbn [extract_pages]. by apply IH.
Qed.

Lemma join_lines_length (texts : list pystr) :
  String.length (join_lines texts) = sum_list ((λ t, String.length t + 1) <$> texts).
Proof.
  induction texts as [|t texts IH]; [done|].
  cbn [join_lines foldr fmap list_fmap sum_list sum_list_with].
  rewrite !str_app_length. fold (join_lines texts). rewrite IH. simpl. lia.
Qed.

(** X3. What [extract_text_from_pdf] returns.  When the file opens and no
    page raises, the result is the text of every page that has some, each
    followed by one newline, in page order; pages whose extraction gives
    [None] or the empty string add nothing, not even a newline.  Its length
    is the sum of the page text lengths plus one per such page, and it is the
    empty string exactly when no page has text.  When the file does not open
    or any page raises, the result is [None]: the text of the pages read
    before is discarded.  There is no other result. *)
Theorem extract_text_from_pdf_joins_pages :
  (∀ pages, forallb page_ok pages = true →
     extract_text_from_pdf (Ret pages) = PyStr (join_lines (page_texts pages))
     ∧ String.length (join_lines (page_texts pages))
       = sum_list ((λ t, String.length t + 1) <$> page_texts pages)
     ∧ (join_lines (page_texts pages) = "" ↔ page_texts pages = []))
  ∧ (∀ pages, forallb page_ok pages = false → extract_text_from_pdf (Ret pages) = PyNone)
  ∧ (∀ e, extract_text_from_pdf (Raise e) = PyNone)
  ∧ (∀ pdf, extract_text_from_pdf pdf = PyNone ∨ ∃ text, extract_text_from_pdf pdf = PyStr text).
Proof.
  split; [|split; [|split]].
  - intros pages Hok. unfold extract_text_from_pdf.
    rewrite extract_pages_spec by done. rewrite str_app_nil_l.
    split; [done|]. split; [apply join_lines_length|].
    rewrite <- empty_string_length, join_lines_length.
    destruct (page_texts pages) as [|t ts]; [done|].
    rewrite fmap_cons. simpl. split; [lia | done].
  - intros pages Hbad. unfold extract_text_from_pdf.
    by destruct (extract_pages_raises pages "" Hbad) as [e ->].
  - done.
  - intros [pages|e]; [|by left]. unfold extract_text_from_pdf.
    destruct (extract_pages pages ""); eauto.
Qed.

(** ** From a PDF to an answer *)

(** The calls the extractive path makes for a text: one per window, each with
    the question and a window of 1 to 512 characters. *)
Lemma extractive_answer_calls {St : Type} (f : pipeline St) (question : pystr)
    (pdf_text : pyval) (w : world St) :
  ∃ evs,
    trace (get_answer (extractive_components f) question pdf_text w).2 = trace w ++ evs
    ∧ score_calls evs = (λ chunk, QaArgs question chunk 3 true) <$> make_chunks pdf_text.
Proof.
  rewrite get_answer_extractive by done. cbn [extractive_components mc_pipeline].
  destruct (decide (make_chunks pdf_text = [])) as [Hnil|Hchunks].
  - rewrite extractive_answer_empty by done. exists []. rewrite Hnil.
    by rewrite app_nil_r.
  - rewrite extractive_answer_scored by done. rewrite score_chunks_spec. cbn [snd trace].
    eexists. split; [done|]. by rewrite run_events_calls.
Qed.

(** X4. Reading a PDF and answering from it with an extractive model.  When
    the PDF cannot be read, [get_answer] returns the empty-document answer and
    touches nothing: no pipeline call, no print.  When it can, the pipeline is
    called exactly ceil(T / 412) times, where T is the sum over the pages that
    have text of the length of the text plus one; every call carries the
    question, top_k 3, handle_impossible_answer True, and a context of 1 to
    512 characters; a PDF none of whose pages has text costs no call and
    gives the empty-document answer. *)
Theorem pdf_answer_pipeline_calls {St : Type} (f : pipeline St) (question : pystr)
    (pdf : pdf_file) (w : world St) :
  (extract_text_from_pdf pdf = PyNone →
   get_answer (extractive_components f) question (extract_text_from_pdf pdf) w
   = (Ret empty_document_answer, w))
  ∧ (∀ pages, pdf = Ret pages → forallb page_ok pages = true →
     ∃ evs,
       trace (get_answer (extractive_components f) question
                (extract_text_from_pdf pdf) w).2 = trace w ++ evs
       ∧ length (score_calls evs)
         = ceil_div (sum_list ((λ t, String.length t + 1) <$> page_texts pages))
                    (max_chunk_len - overlap)
       ∧ (∀ args, args ∈ score_calls evs →
            arg_question args = question
            ∧ arg_top_k args = 3 ∧ arg_handle_impossible_answer args = true
            ∧ 1 ≤ String.length (arg_context args) ≤ max_chunk_len)
       ∧ (page_texts pages = [] →
          get_answer (extractive_components f) question (extract_text_from_pdf pdf) w
          = (Ret empty_document_answer, w))).
Proof.
  split.
  - intros ->. rewrite get_answer_extractive by done. by apply extractive_answer_empty.
  - intros pages -> Hok.
    destruct (extractive_answer_calls f question (extract_text_from_pdf (Ret pages)) w)
      as (evs & Htrace & Hcalls).
    exists evs. split; [done|]. rewrite Hcalls.
    unfold extract_text_from_pdf in *. rewrite extract_pages_spec in * by done.
    rewrite str_app_nil_l in *. split; [|split].
    + by rewrite length_fmap, make_chunks_length, join_lines_length.
    + intros args (chunk & -> & Hin)%list_elem_of_fmap. cbn.
      apply list_elem_of_lookup in Hin as [k Hk].
      apply make_chunks_inv in Hk as (s & [= <-] & Hlt & ->).
      rewrite chunk_length. repeat split; try done; unfold max_chunk_len, overlap in *; lia.
    + intros ->. rewrite get_answer_extractive by done. by apply extractive_answer_empty.
Qed.

(** ** Loading the components *)

(** A name that contains [flan-t5] contains [t5]. *)
Lemma contains_flan_t5 (s : pystr) :
  str_contains "flan-t5" s = true → str_contains "t5" s = true.
Proof.
  unfold str_contains.
  destruct (String.index 0 "flan-t5" s) as [n|] eqn:Hflan; [|done]. intros _.
  destruct (String.index 0 "t5" s) as [m|] eqn:Ht5; [done|]. exfalso.
  apply String.index_correct1 in Hflan.
  apply (String.index_correct3 0 (n + 5)) in Ht5; [|done|lia].
  apply Ht5. cbn [String.length].
  rewrite <- (substring_substring s n 7 5 2) by lia.
  cbn [String.length] in Hflan. by rewrite Hflan.
Qed.

Section LoaderFacts.
Context {St : Type}.
Variable from_pretrained_tokenizer : pystr → py_result tokenizer.
Variable from_pretrained_model : pystr → pystr → py_result gen_model.
Variable make_qa_pipeline : pystr → pystr → pystr → py_result (pipeline St).

#[local] Abbreviation load :=
  (load_model_components from_pretrained_tokenizer from_pretrained_model make_qa_pipeline).

(** The shape of what the loader returns. *)
Lemma load_model_components_shape cuda model_name tokenizer_name mc :
  load cuda model_name tokenizer_name = Ret mc →
  (str_contains "flan-t5" model_name = true
   ∧ ∃ model tok,
       from_pretrained_model model_name (if cuda then "cuda" else "cpu") = Ret model
       ∧ from_pretrained_tokenizer model_name = Ret tok
       ∧ mc = {| mc_model := Some model; mc_tokenizer := Some tok; mc_pipeline := None |})
  ∨ (str_contains "flan-t5" model_name = false
     ∧ ∃ qa_pipeline,
         make_qa_pipeline model_name (default model_name tokenizer_name)
           (if cuda then "cuda" else "cpu") = Ret qa_pipeline
         ∧ mc = {| mc_model := None; mc_tokenizer := None;
                   mc_pipeline := Some qa_pipeline |}).
Proof.
  unfold load_model_components.
  destruct (str_contains "flan-t5" model_name).
  - destruct (from_pretrained_tokenizer model_name) as [tok|e]; [|done].
    destruct (from_pretrained_model model_name _) as [model|e]; [|done].
    intros [= <-]. left. eauto 10.
  - destruct (make_qa_pipeline _ _ _) as [qa_pipeline|e]; [|done].
    intros [= <-]. right. eauto.
Qed.

(** With components from the loader [get_answer] never fails for want of a
    component: what it raises, the tokenizer or the model raised, and the
    model is one the loader took for a FLAN-T5. *)
Lemma loaded_answer_raises cuda model_name tokenizer_name (mc : model_components St)
    question pdf_text w e w' :
  load cuda model_name tokenizer_name = Ret mc →
  get_answer mc question pdf_text w = (Raise e, w') →
  str_contains "flan-t5" model_name = true
  ∧ is_generative mc = true
  ∧ ∃ model tok,
      mc_model mc = Some model ∧ mc_tokenizer mc = Some tok
      ∧ (tok_encode tok (prompt_of question pdf_text) 1024 true = Raise e
         ∨ ∃ inputs,
             tok_encode tok (prompt_of question pdf_text) 1024 true = Ret inputs
             ∧ (gen_generate model inputs 200 4 true = Raise e
                ∨ ∃ outputs0,
                    gen_generate model inputs 200 4 true = Ret outputs0
                    ∧ tok_decode tok outputs0 = Raise e)).
Proof.
  intros Hload Hrun.
  destruct (get_answer_raises _ _ _ _ _ _ Hrun) as (model & Hmodel & Hmode & Hwhy).
  destruct (load_model_components_shape _ _ _ _ Hload)
    as [(Hflan & model' & tok & _ & _ & ->)|(_ & qa_pipeline & _ & ->)]; [|done].
  split; [done|]. split; [done|]. exists model, tok. split; [done|]. split; [done|].
  destruct Hwhy as [Hnone|(tok' & [= <-] & Hwhy)]; done.
Qed.

(** X5. The loader and [get_answer] agree on the mode.  The loader decides by
    [flan-t5] in the model name, [get_answer] by [t5] in the name the model
    object carries; when a loaded model carries the name it was loaded under,
    the components the loader returns are generative for [get_answer] exactly
    when the model name contains [flan-t5].  So a T5 model that is not a
    FLAN-T5 is run as an extractive pipeline.  Generative components hold the
    tokenizer of the model itself and no pipeline, and the [tokenizer_name]
    argument plays no part in them; extractive components hold a pipeline and
    nothing else, and [get_answer] returns an answer with them.  With loaded
    components [get_answer] never fails for want of a component: an exception
    that leaves it was raised by the tokenizer or by the model. *)
Theorem loaded_components_route_by_name cuda (model_name : pystr)
    (tokenizer_name : option pystr) (mc : model_components St) :
  load cuda model_name tokenizer_name = Ret mc →
  (∀ device model, from_pretrained_model model_name device = Ret model →
     name_or_path model = model_name) →
  is_generative mc = str_contains "flan-t5" model_name
  ∧ (is_generative mc = true →
     is_Some (mc_model mc)
     ∧ (∃ tok, from_pretrained_tokenizer model_name = Ret tok ∧ mc_tokenizer mc = Some tok)
     ∧ mc_pipeline mc = None
     ∧ ∀ other, load cuda model_name other = Ret mc)
  ∧ (is_generative mc = false →
     mc_model mc = None ∧ mc_tokenizer mc = None ∧ is_Some (mc_pipeline mc)
     ∧ ∀ question pdf_text w, ∃ res w', get_answer mc question pdf_text w = (Ret res, w'))
  ∧ (∀ question pdf_text w e w',
       get_answer mc question pdf_text w = (Raise e, w') →
       ∃ model tok,
         mc_model mc = Some model ∧ mc_tokenizer mc = Some tok
         ∧ (tok_encode tok (prompt_of question pdf_text) 1024 true = Raise e
            ∨ ∃ inputs,
                tok_encode tok (prompt_of question pdf_text) 1024 true = Ret inputs
                ∧ (gen_generate model inputs 200 4 true = Raise e
                   ∨ ∃ outputs0,
                       gen_generate model inputs 200 4 true = Ret outputs0
                       ∧ tok_decode tok outputs0 = Raise e))).
Proof.
  intros Hload Hname.
  assert (∀ question pdf_text w e w',
            get_answer mc question pdf_text w = (Raise e, w') →
            ∃ model tok,
              mc_model mc = Some model ∧ mc_tokenizer mc = Some tok
              ∧ (tok_encode tok (prompt_of question pdf_text) 1024 true = Raise e
                 ∨ ∃ inputs,
                     tok_encode tok (prompt_of question pdf_text) 1024 true = Ret inputs
                     ∧ (gen_generate model inputs 200 4 true = Raise e
                        ∨ ∃ outputs0,
                            gen_generate model inputs 200 4 true = Ret outputs0
                            ∧ tok_decode tok outputs0 = Raise e))) as Hraises.
  { intros question pdf_text w e w' Hrun.
    by destruct (loaded_answer_raises _ _ _ _ _ _ _ _ _ Hload Hrun) as (_ & _ & ?). }
  destruct (load_model_components_shape _ _ _ _ Hload)
    as [(Hflan & model & tok & Hmodel & Htok & ->)|(Hflan & qa_pipeline & Hpipe & ->)].
  - assert (is_generative (St:=St) {| mc_model := Some model; mc_tokenizer := Some tok;
                              mc_pipeline := None |} = true) as Hgen.
    { unfold is_generative. cbn [mc_model]. rewrite (Hname _ _ Hmodel).
      by apply contains_flan_t5. }
    rewrite Hgen, Hflan. split; [done|]. split; [|split; [done|done]].
    intros _. cbn [mc_model mc_tokenizer mc_pipeline].
    split; [by eexists|]. split; [by exists tok|]. split; [done|]. intros other.
    unfold load_model_components. by rewrite Hflan, Htok, Hmodel.
  - rewrite Hflan. split; [done|]. split; [done|]. split; [|done].
    intros _. split; [done|]. split; [done|]. split; [by eexists|].
    intros question pdf_text w. rewrite get_answer_extractive by done.
    cbn [mc_pipeline].
    destruct (extractive_answer_cases (Some qa_pipeline) question pdf_text w)
      as (res & -> & _). eauto.
Qed.

End LoaderFacts.

Lemma loaded_components_route_by_name_witness :
  load_model_components hub_tokenizer hub_model hub_pipeline false
    "google/flan-t5-base" None = Ret flan_components
  ∧ is_generative flan_components = true
  ∧ load_model_components hub_tokenizer hub_model hub_pipeline false
      "google/flan-t5-base" (Some "google/muril-base-cased") = Ret flan_components.
Proof.
  destruct (loaded_components_route_by_name hub_tokenizer hub_model hub_pipeline false
              "google/flan-t5-base" None flan_components)
    as (Hmode & Hgenerative & _ & _).
  - vm_compute. reflexivity.
  - intros device model [= <-]. reflexivity.
  - split; [vm_compute; reflexivity|].
    assert (is_generative flan_components = true) as Hgen
      by (rewrite Hmode; vm_compute; reflexivity).
    split; [exact Hgen|]. by apply Hgenerative.
Defined.

(** ** The voice handler *)

Lemma split_head_app (sep : Ascii.ascii) (l r : pystr) :
  split_head sep (l +:+ String sep r) = split_head sep l.
Proof.
  induction l as [|c l IH].
  - rewrite str_app_nil_l. cbn [split_head]. by rewrite Ascii.eqb_refl.
  - rewrite str_app_cons. cbn [split_head]. destruct (Ascii.eqb c sep); [done|].
    by rewrite IH.
Qed.

Lemma split_head_idemp (sep : Ascii.ascii) (s : pystr) :
  split_head sep (split_head sep s) = split_head sep s.
Proof.
  induction s as [|c s IH]; [done|]. cbn [split_head].
  destruct (Ascii.eqb c sep) eqn:Hc; [done|]. cbn [split_head]. by rewrite Hc, IH.
Qed.

(** X6. The language hint Whisper gets never carries a region.
    [listen_and_transcribe] passes the part of [lang] before the first
    hyphen, so a language tag and the same tag followed by a hyphen and
    anything else give the same result, as do a tag and its part before the
    first hyphen.  For each language of [MODEL_CONFIG] that part of
    [stt_lang] is the [lang_code] the speech output uses: the recognizer and
    the synthesizer are always given the same language code.  Of the
    recognizer's exceptions [UnknownValueError] and [RequestError] become the
    result [None]; any other exception, and any exception of the microphone,
    leaves the function. *)
Theorem whisper_hint_ignores_region {A : Type} (recognize_whisper : A → pystr → recognition)
    (heard : capture A) :
  (∀ l r, listen_and_transcribe recognize_whisper heard (l +:+ "-" +:+ r)
          = listen_and_transcribe recognize_whisper heard l)
  ∧ (∀ lang, listen_and_transcribe recognize_whisper heard (split_head "-" lang)
             = listen_and_transcribe recognize_whisper heard lang)
  ∧ (∀ language, split_head "-" (stt_lang (MODEL_CONFIG language))
                 = lang_code (MODEL_CONFIG language))
  ∧ (∀ lang e, listen_and_transcribe recognize_whisper heard lang = Raise e ↔
       heard = CaptureRaised e
       ∨ ∃ audio, heard = Captured audio
           ∧ recognize_whisper audio (split_head "-" lang) = OtherError e).
Proof.
  split; [|split; [|split]].
  - intros l r. unfold listen_and_transcribe. destruct heard as [e|audio]; [done|].
    change ("-" +:+ r) with (String "-"%char r). by rewrite split_head_app.
  - intros lang. unfold listen_and_transcribe. destruct heard as [e|audio]; [done|].
    by rewrite split_head_idemp.
  - by intros [].
  - intros lang e. unfold listen_and_transcribe. destruct heard as [e'|audio].
    + split; [intros [= ->]; by left|]. intros [[= ->]|(audio & [=] & _)]. done.
    + destruct (recognize_whisper audio _) as [text| |e'|e'] eqn:Hrec.
      * split; [done|]. intros [[=]|(audio' & [= <-] & H)]. congruence.
      * split; [done|]. intros [[=]|(audio' & [= <-] & H)]. congruence.
      * split; [done|]. intros [[=]|(audio' & [= <-] & H)]. congruence.
      * split; [intros [= ->]; right; eauto|].
        intros [[=]|(audio' & [= <-] & H)]. congruence.
Qed.

Lemma audio_file_name_inj (lang_code : pystr) (t1 t2 : Z) :
  audio_file_name lang_code t1 = audio_file_name lang_code t2 → t1 = t2.
Proof.
  unfold audio_file_name. intros H.
  do 3 apply str_app_inv_head in H. apply str_app_inv_tail in H.
  by apply (inj pretty) in H.
Qed.

(** X7. The file name of the speech output is unique only up to the second.
    Two successful calls of [text_to_speech] for the same language return the
    same path exactly when the clock readings have the same integer part,
    whatever the two texts are: a second answer spoken within the same second
    is saved over the first.  The path holds the language code and that
    integer and nothing of the text. *)
Theorem speech_files_collide_within_a_second
    (gtts_save : pystr → pystr → pystr → option pystr)
    (now1 now2 : Q) (text1 text2 lang_code path1 path2 : pystr) :
  text_to_speech gtts_save now1 text1 lang_code = Some path1 →
  text_to_speech gtts_save now2 text2 lang_code = Some path2 →
  path1 = audio_file_name lang_code (py_int now1)
  ∧ (path1 = path2 ↔ py_int now1 = py_int now2).
Proof.
  unfold text_to_speech. intros H1 H2.
  destruct (gtts_save text1 _ _); [done|]. destruct (gtts_save text2 _ _); [done|].
  injection H1 as <-. injection H2 as <-. split; [done|]. split.
  - apply audio_file_name_inj.
  - by intros ->.
Qed.

Lemma speech_files_collide_within_a_second_witness :
  text_to_speech (λ _ _ _, None) (17000000002 # 10) "the Moon" "en"
  = text_to_speech (λ _ _ _, None) (17000000009 # 10) "Luna" "en".
Proof.
  destruct (speech_files_collide_within_a_second (λ _ _ _, None)
              (17000000002 # 10) (17000000009 # 10) "the Moon" "Luna" "en"
              (audio_file_name "en" 1700000000) (audio_file_name "en" 1700000000))
    as [_ Hsame].
  - vm_compute. reflexivity.
  - vm_compute. reflexivity.
  - vm_compute. reflexivity.
Defined.

(** ** The passes of [app.py] *)

Section AppFacts.
Context {St A : Type}.
Variable from_pretrained_tokenizer : pystr → py_result tokenizer.
Variable from_pretrained_model : pystr → pystr → py_result gen_model.
Variable make_qa_pipeline : pystr → pystr → pystr → py_result (pipeline St).
Variable recognize_whisper : A → pystr → recognition.
Variable gtts_save : pystr → pystr → pystr → option pystr.

#[local] Abbreviation loaded inp :=
  (load_model_components from_pretrained_tokenizer from_pretrained_model make_qa_pipeline
     (cuda_available inp) (model_name (MODEL_CONFIG (selected_language inp))) None).
#[local] Abbreviation pass :=
  (app_pass from_pretrained_tokenizer from_pretrained_model make_qa_pipeline
     recognize_whisper gtts_save).
#[local] Abbreviation run :=
  (app_run from_pretrained_tokenizer from_pretrained_model make_qa_pipeline
     recognize_whisper gtts_save).
#[local] Abbreviation listened inp :=
  (listen_and_transcribe recognize_whisper (heard inp)
     (stt_lang (MODEL_CONFIG (selected_language inp)))).
#[local] Abbreviation case_of :=
  (pass_case from_pretrained_tokenizer from_pretrained_model make_qa_pipeline
     recognize_whisper gtts_save).

(** What [process_question] followed by [st.rerun()] leaves. *)
Lemma ask_cases (mc : model_components St) question pdf_text ss (w : world St) :
  (∃ answer w',
      get_answer mc question pdf_text w = (Ret answer, w')
      ∧ ask mc question pdf_text ss w
        = Halt Rerun {| answer_data := Some answer; ss_question := question;
                        ui_state := "done" |} w')
  ∨ (∃ e w',
        get_answer mc question pdf_text w = (Raise e, w')
        ∧ ask mc question pdf_text ss w
          = Halt (Crashed e) {| answer_data := answer_data ss; ss_question := question;
                                ui_state := ui_state ss |} w').
Proof.
  unfold ask, process_question.
  destruct (get_answer mc question pdf_text w) as [[answer|e] w']; [left|right]; eauto.
Qed.

Lemma str_truthy_false (s : pystr) : str_truthy s = false → s = "".
Proof.
  unfold str_truthy. intros H. apply negb_false_iff, Nat.eqb_eq in H.
  by apply empty_string_length.
Qed.

Lemma app_pass_cases (inp : pass_input A) (ss : session) (w : world St) :
  case_of inp ss w (pass inp ss w).
Proof.
  unfold app_pass. destruct (loaded inp) as [mc|e] eqn:Hload; [|by constructor].
  unfold interaction. destruct (py_truthy (load_pdf_text inp)) eqn:Htext;
    [|by econstructor].
  unfold idle_block.
  destruct (String.eqb (ui_state ss) "idle") eqn:Hidle.
  { apply String.eqb_eq in Hidle.
    assert (String.eqb (ui_state ss) "recording" = false) as Hrec by by rewrite Hidle.
    assert (String.eqb (ui_state ss) "done" = false) as Hdone by by rewrite Hidle.
    assert (∀ fl : flow, fl = Go ss w →
              case_of inp ss w
                match (match fl with
                       | Halt ending ss' w' => Halt ending ss' w'
                       | Go ss0 w0 =>
                           if record_clicked inp
                           then Halt Rerun {| answer_data := answer_data ss0;
                                              ss_question := ss_question ss0;
                                              ui_state := "recording" |} w0
                           else Go ss0 w0
                       end) with
                | Halt e ss1 w1 => PassResult e ss1 w1 None
                | Go ss1 w1 =>
                    match recording_block recognize_whisper inp mc (load_pdf_text inp)
                            ss1 w1 with
                    | Halt e ss2 w2 => PassResult e ss2 w2 None
                    | Go ss2 w2 =>
                        match done_block gtts_save inp ss2 w2 with
                        | (Halt e ss3 w3, audio) => PassResult e ss3 w3 audio
                        | (Go ss3 w3, audio) => PassResult Completed ss3 w3 audio
                        end
                    end
                end) as Hrest.
    { intros fl ->. destruct (record_clicked inp) eqn:Hclick; [by econstructor|].
      unfold recording_block, done_block. rewrite Hrec, Hdone. by econstructor. }
    destruct (submit_clicked inp) eqn:Hsubmit; [|exact (Hrest (Go ss w) eq_refl)].
    destruct (str_truthy (text_q inp)) eqn:Hq; [|exact (Hrest (Go ss w) eq_refl)].
    destruct (ask_cases mc (text_q inp) (load_pdf_text inp) ss w)
      as [(answer & w' & Hget & ->)|(e & w' & Hget & ->)].
    - eapply asked; eauto.
    - eapply asking_raised; eauto. }
  apply String.eqb_neq in Hidle.
  unfold recording_block.
  destruct (String.eqb (ui_state ss) "recording") eqn:Hrec.
  { apply String.eqb_eq in Hrec.
    destruct (listened inp) as [[question|]|e] eqn:Hheard.
    - destruct (str_truthy question) eqn:Hq.
      + destruct (ask_cases mc question (load_pdf_text inp) ss w)
          as [(answer & w' & Hget & ->)|(e & w' & Hget & ->)].
        * eapply asked; eauto.
        * eapply asking_raised; eauto.
      + apply str_truthy_false in Hq as ->. eapply nothing_heard; eauto.
    - eapply nothing_heard; eauto.
    - by econstructor. }
  apply String.eqb_neq in Hrec.
  unfold done_block.
  destruct (String.eqb (ui_state ss) "done") eqn:Hdone.
  - apply String.eqb_eq in Hdone.
    destruct (answer_data ss) as [ans_data|] eqn:Hans; [|by econstructor].
    pose proof (answer_shown from_pretrained_tokenizer from_pretrained_model make_qa_pipeline
                  recognize_whisper gtts_save inp ss w mc ans_data Hload Htext Hdone Hans) as Hcase.
    by destruct (again_clicked inp).
  - apply String.eqb_neq in Hdone. by econstructor.
Qed.

(** A pass keeps the session well formed. *)
Lemma app_pass_session_ok (inp : pass_input A) (ss : session) (w : world St) :
  session_ok ss → session_ok (session_after (pass inp ss w)).
Proof.
  intros Hok. pose proof Hok as (Hstate & Hdone & Hq).
  assert (∀ question, str_truthy question = true → question ≠ "") as Htruthy
    by by intros ? ? ->.
  assert (∀ a : answer_result, is_Some (Some a)) as Hsome by by eexists.
  assert (¬ is_Some (@None answer_result)) as Hnone by by intros [? [=]].
  destruct (app_pass_cases inp ss w); cbn [session_after]; try exact Hok.
  - (* asked *)
    unfold session_ok. cbn [ui_state answer_data ss_question].
    split; [auto|]. split; [done|]. intros _. by apply Htruthy.
  - (* asking raised *)
    unfold session_ok. cbn [ui_state answer_data ss_question].
    split; [done|]. split; [done|]. intros _. by apply Htruthy.
  - (* recording started *)
    unfold session_ok. cbn [ui_state answer_data ss_question].
    split; [auto|]. split; [|done]. split; [done|].
    intros Hs. apply Hdone in Hs. congruence.
  - (* nothing heard *)
    unfold session_ok. cbn [ui_state answer_data ss_question].
    split; [auto|]. split; [|done]. split; [done|].
    intros Hs. apply Hdone in Hs. congruence.
  - (* answer shown *)
    destruct (again_clicked inp); [|exact Hok].
    unfold session_ok, initial_session. cbn [ui_state answer_data ss_question].
    split; [auto|]. split; [|done]. split; [done|]. intros Hs. by apply Hnone in Hs.
Qed.

Lemma app_run_snoc (inps : list (pass_input A)) inp ss (w : world St) :
  run (inps ++ [inp]) ss w
  = (session_after (pass inp (run inps ss w).1 (run inps ss w).2),
     world_after (pass inp (run inps ss w).1 (run inps ss w).2)).
Proof. unfold app_run. by rewrite foldl_app. Qed.

Lemma initial_session_ok : session_ok initial_session.
Proof.
  unfold session_ok, initial_session. cbn.
  split; [auto|]. split; [|done]. split; [done|]. by intros [? [=]].
Qed.

Lemma app_run_session_ok (inps : list (pass_input A)) ss (w : world St) :
  session_ok ss → session_ok (run inps ss w).1.
Proof.
  intros Hok. induction inps as [|inp inps IH] using rev_ind; [done|].
  rewrite app_run_snoc. cbn [fst]. by apply app_pass_session_ok.
Qed.

(** X8. A session that starts fresh stays well formed whatever the user does
    and however the passes end: after any sequence of passes the state is one
    of idle, recording and done, the session holds an answer exactly when
    the state is done, and the question is then not empty.  So the block that
    shows the answer never reads an answer that is not there: no pass of such
    a session ends in the [TypeError] of subscripting [None], unless the loader,
    [get_answer] or the voice capture raised an exception with that very
    text. *)
Theorem fresh_session_stays_well_formed (inps : list (pass_input A)) (w : world St) :
  session_ok (run inps initial_session w).1
  ∧ ¬ (ui_state (run inps initial_session w).1 = "done"
       ∧ answer_data (run inps initial_session w).1 = None)
  ∧ ∀ inp e,
      ending (pass inp (run inps initial_session w).1 (run inps initial_session w).2)
      = Crashed e →
      loaded inp = Raise e
      ∨ listened inp = Raise e
      ∨ ∃ mc question w1 w2, loaded inp = Ret mc
          ∧ get_answer mc question (load_pdf_text inp) w1 = (Raise e, w2).
Proof.
  pose proof (app_run_session_ok inps initial_session w initial_session_ok)
    as Hok.
  split; [done|]. destruct Hok as (Hstate & Hdone & Hq). split.
  - intros [Hd Hnone]. apply Hdone in Hd as [a Ha]. congruence.
  - intros inp e.
    destruct (app_pass_cases inp (run inps initial_session w).1
                (run inps initial_session w).2); cbn [ending]; try done.
    + intros [= <-]. by left.
    + intros [= <-]. right. right. eauto 10.
    + intros [= <-]. right. by left.
    + match goal with H : answer_data _ = None |- _ => rename H into Hnone end.
      match goal with H : ui_state _ = "done" |- _ => apply Hdone in H as [a Ha] end.
      congruence.
    + by destruct (again_clicked inp).
Qed.

Lemma load_pdf_text_cases (inp : pass_input A) :
  load_pdf_text inp = PyNone ∨ ∃ text, load_pdf_text inp = PyStr text.
Proof.
  unfold load_pdf_text.
  destruct (use_default_pdf inp);
    [destruct (files inp _) as [[pages|e]|] | destruct (uploaded_file inp) as [[pages|e]|]];
    try (by left); unfold extract_text_from_pdf; destruct (extract_pages pages ""); eauto.
Qed.

(** A text that passes [if pdf_text:] is a string with at least one window. *)
Lemma load_pdf_text_truthy (inp : pass_input A) :
  py_truthy (load_pdf_text inp) = true →
  ∃ text, load_pdf_text inp = PyStr text ∧ text ≠ "" ∧ make_chunks (PyStr text) ≠ [].
Proof.
  destruct (load_pdf_text_cases inp) as [->|[text ->]]; [done|].
  intros Htruthy. exists text.
  assert (text ≠ "") as Hne by (intros ->; done).
  split; [done|]. split; [done|].
  intros [[=]|[[= ->]|(b & r & [=])]]%make_chunks_empty_iff. done.
Qed.



(** X10. The app calls [get_answer] only with a question and a text that are
    not empty.  A pass either leaves everything [get_answer] works on as it
    was, and then the stored answer is unchanged or the session was reset;
    or it called [get_answer] once, with the loaded components, a question
    that is not the empty string and the text of the PDF, which is a string
    with at least one window.  So the branch of [get_answer] for a text
    without windows is never taken from the app.  When the call returns, the
    session holds its answer and the question, in state done. *)
Theorem app_asks_only_about_nonempty_text (inp : pass_input A) (ss : session)
    (w : world St) :
  (world_after (pass inp ss w) = w
   ∧ (answer_data (session_after (pass inp ss w)) = answer_data ss
      ∨ session_after (pass inp ss w) = initial_session))
  ∨ ∃ mc question text,
      loaded inp = Ret mc
      ∧ load_pdf_text inp = PyStr text
      ∧ text ≠ "" ∧ question ≠ "" ∧ make_chunks (PyStr text) ≠ []
      ∧ (ui_state ss = "idle" ∧ question = text_q inp
         ∨ ui_state ss = "recording" ∧ listened inp = Ret (Some question))
      ∧ world_after (pass inp ss w) = (get_answer mc question (PyStr text) w).2
      ∧ ∀ answer, (get_answer mc question (PyStr text) w).1 = Ret answer →
          session_after (pass inp ss w)
          = {| answer_data := Some answer; ss_question := question; ui_state := "done" |}.
Proof.
  assert (∀ question, str_truthy question = true → question ≠ "") as Htruthy
    by by intros ? ? ->.
  destruct (app_pass_cases inp ss w) as
    [e'|mc|mc question answer w' Hload Htext Hfrom Hquestion Hget
    |mc question e' w' Hload Htext Hfrom Hquestion Hget|mc|mc|mc e'|mc|mc
    |mc ans_data|mc]; cbn [ending session_after world_after audio_played];
    try (left; split; [done|by left]).
  - right. destruct (load_pdf_text_truthy inp Htext) as (text & Heq & Hne & Hchunks).
    rewrite Heq in *. exists mc, question, text. rewrite Hget. cbn [fst snd].
    assert (ui_state ss = "idle" ∧ question = text_q inp
            ∨ ui_state ss = "recording" ∧ listened inp = Ret (Some question)) as Hfrom'
      by (destruct Hfrom as [(? & _ & ?)|?]; [by left|by right]).
    repeat split; auto. by intros ? [= <-].
  - right. destruct (load_pdf_text_truthy inp Htext) as (text & Heq & Hne & Hchunks).
    rewrite Heq in *. exists mc, question, text. rewrite Hget. cbn [fst snd].
    assert (ui_state ss = "idle" ∧ question = text_q inp
            ∨ ui_state ss = "recording" ∧ listened inp = Ret (Some question)) as Hfrom'
      by (destruct Hfrom as [(? & _ & ?)|?]; [by left|by right]).
    repeat split; auto. by intros ? [=].
  - left. split; [done|]. destruct (again_clicked inp); auto.
Qed.

Lemma listening_without_microphone (inp : pass_input A) (e : pystr) :
  heard inp = CaptureRaised e → listened inp = Raise e.
Proof. unfold listen_and_transcribe. by intros ->. Qed.

(** X11. The state recording is left only through the microphone.  From a
    session in state recording, a pass ends in a rerun only when the voice
    capture returned, and the session is then in state idle or done; every
    other pass leaves the session in state recording.  While the microphone
    raises, on a machine without one for instance, nothing ever changes: after
    any number of passes the session is the same, still recording, so every
    later pass of that session fails in the same way. *)
Theorem recording_is_left_only_through_the_microphone (ss : session) (w : world St) :
  ui_state ss = "recording" →
  (∀ inp, ending (pass inp ss w) = Rerun →
     (∃ transcribed, listened inp = Ret transcribed)
     ∧ (ui_state (session_after (pass inp ss w)) = "idle"
        ∨ ui_state (session_after (pass inp ss w)) = "done"))
  ∧ (∀ inp, ending (pass inp ss w) ≠ Rerun →
       ui_state (session_after (pass inp ss w)) = "recording")
  ∧ (∀ inps, Forall (λ inp, ∃ e, heard inp = CaptureRaised e) inps →
       run inps ss w = (ss, w)).
Proof.
  intros Hrec.
  assert (ui_state ss ≠ "idle" ∧ ui_state ss ≠ "done") as [Hidle Hdone]
    by by rewrite Hrec.
  assert (∀ inp,
            (ending (pass inp ss w) = Rerun →
             (∃ transcribed, listened inp = Ret transcribed)
             ∧ (ui_state (session_after (pass inp ss w)) = "idle"
                ∨ ui_state (session_after (pass inp ss w)) = "done"))
            ∧ (ending (pass inp ss w) ≠ Rerun →
               ui_state (session_after (pass inp ss w)) = "recording")
            ∧ ((∃ e, heard inp = CaptureRaised e) →
               session_after (pass inp ss w) = ss ∧ world_after (pass inp ss w) = w))
    as Hpass.
  { intros inp.
    destruct (app_pass_cases inp ss w) as
      [e'|mc|mc question answer w' Hload Htext Hfrom Hquestion Hget
      |mc question e' w' Hload Htext Hfrom Hquestion Hget|mc|mc|mc e'|mc ? ? ? Hnone|mc
      |mc ans_data|mc]; cbn [ending session_after world_after ui_state]; try done.
    - destruct Hfrom as [[? _]|[_ Hheard]]; [done|].
      split; [eauto|]. split; [done|]. intros [e Hmic].
      rewrite (listening_without_microphone inp e Hmic) in Hheard. done.
    - destruct Hfrom as [[? _]|[_ Hheard]]; [done|].
      split; [done|]. split; [done|]. intros [e Hmic].
      rewrite (listening_without_microphone inp e Hmic) in Hheard. done.
    - split; [|split; [done|]].
      + intros _. split; [destruct Hnone; eauto | by left].
      + intros [e Hmic]. rewrite (listening_without_microphone inp e Hmic) in Hnone.
        by destruct Hnone. }
  split; [intros inp; apply Hpass|]. split; [intros inp; apply Hpass|].
  intros inps Hmic. induction Hmic as [|inp inps Hinp _ IH]; [done|].
  unfold app_run in *. cbn [foldl fst snd].
  destruct (Hpass inp) as (_ & _ & Hsame). destruct (Hsame Hinp) as [-> ->]. exact IH.
Qed.

(** X12. The answer on the screen is not asked again, and it is spoken in
    the language selected now.  In state done, with the model loaded and a
    text read, a pass does not call [get_answer]: it speaks the stored answer
    with the language code of the language selected in this pass, whichever
    language and PDF the answer came from, and it does so on every pass, under
    the file name of the second of the pass.  The session is kept, or reset to
    the initial one when the user asks another question. *)
Theorem stored_answer_is_spoken_in_the_selected_language (inp : pass_input A)
    (ss : session) (w : world St) (mc : model_components St) (ans_data : answer_result) :
  ui_state ss = "done" → answer_data ss = Some ans_data →
  loaded inp = Ret mc → py_truthy (load_pdf_text inp) = true →
  audio_played (pass inp ss w)
  = text_to_speech gtts_save (now inp) (ans_answer ans_data)
      (lang_code (MODEL_CONFIG (selected_language inp)))
  ∧ (∀ path, audio_played (pass inp ss w) = Some path →
       path = audio_file_name (lang_code (MODEL_CONFIG (selected_language inp)))
                (py_int (now inp)))
  ∧ world_after (pass inp ss w) = w
  ∧ session_after (pass inp ss w) = (if again_clicked inp then initial_session else ss)
  ∧ ending (pass inp ss w) = (if again_clicked inp then Rerun else Completed).
Proof.
  intros Hdone Hans Hload Htext.
  assert (ui_state ss ≠ "idle" ∧ ui_state ss ≠ "recording") as [Hidle Hrec]
    by by rewrite Hdone.
  destruct (app_pass_cases inp ss w) as
    [e'|mc'|mc' question answer w' ? ? Hfrom|mc' question e' w' ? ? Hfrom|mc'|mc'|mc' e'
    |mc'|mc'|mc' ans_data'|mc'];
    cbn [ending session_after world_after audio_played]; try congruence.
  - by destruct Hfrom as [[? _]|[? _]].
  - by destruct Hfrom as [[? _]|[? _]].
  - assert (ans_data' = ans_data) as -> by congruence.
    split; [done|]. split; [|done].
    unfold text_to_speech. intros path. destruct (gtts_save _ _ _); [done|].
    by intros [= <-].
Qed.

End AppFacts.


Lemma recording_is_left_only_through_the_microphone_witness :
  app_run hub_tokenizer hub_model hub_pipeline whisper_stub gtts_stub
    [no_microphone; typed_question; no_microphone] recording_session
    (start_world moon_store)
  = (recording_session, start_world moon_store).
Proof.
  destruct (recording_is_left_only_through_the_microphone hub_tokenizer hub_model
              hub_pipeline whisper_stub gtts_stub recording_session
              (start_world moon_store)) as (_ & _ & Hsame).
  - reflexivity.
  - apply Hsame. repeat constructor; eexists; reflexivity.
Defined.

Lemma stored_answer_is_spoken_in_the_selected_language_witness :
  audio_played (app_pass hub_tokenizer hub_model hub_pipeline whisper_stub gtts_stub
                  japanese_selected moon_session (start_world moon_store))
  = Some "assets/temp_audio/response_ja_1700000005.mp3".
Proof.
  destruct (stored_answer_is_spoken_in_the_selected_language hub_tokenizer hub_model
              hub_pipeline whisper_stub gtts_stub japanese_selected moon_session
              (start_world moon_store) moon_components
              {| ans_answer := "the Moon"; ans_score := 9 # 10;
                 ans_context := abc_window_1 |}) as (Haudio & _).
  - reflexivity.
  - reflexivity.
  - vm_compute. reflexivity.
  - vm_compute. reflexivity.
  - rewrite Haudio. vm_compute. reflexivity.
Defined.

(** ** What [get_answer] leaves behind *)

(** X13. The context entry is all [get_answer] ever writes.  Whatever the
    pipeline does, after the call every object has the answer text and the
    score it had before, and is either exactly as it was or has had its
    context set to one of the windows of the text; no object appears or
    disappears, and what the call printed or invoked is added after what was
    there.  In generative mode no object and no pipeline state changes at
    all.  So a caller that keeps the dicts the pipeline returned sees them
    changed by the call, but only in their context. *)
Theorem get_answer_only_writes_contexts {St : Type} (mc : model_components St)
    (question : pystr) (pdf_text : pyval) (w : world St) :
  (∀ r, cand_value <$> heap (get_answer mc question pdf_text w).2 !! r
        = cand_value <$> heap w !! r)
  ∧ (∀ r, heap (get_answer mc question pdf_text w).2 !! r = heap w !! r
          ∨ ∃ chunk, chunk ∈ make_chunks pdf_text
              ∧ heap (get_answer mc question pdf_text w).2 !! r
                = set_context chunk <$> heap w !! r)
  ∧ (∀ r, is_Some (heap (get_answer mc question pdf_text w).2 !! r)
          ↔ is_Some (heap w !! r))
  ∧ (∃ evs, trace (get_answer mc question pdf_text w).2 = trace w ++ evs)
  ∧ (is_generative mc = true →
     heap (get_answer mc question pdf_text w).2 = heap w
     ∧ scorer_st (get_answer mc question pdf_text w).2 = scorer_st w).
Proof.
  assert (heap (get_answer mc question pdf_text w).2 = heap w
          ∧ scorer_st (get_answer mc question pdf_text w).2 = scorer_st w
          ∧ (∃ evs, trace (get_answer mc question pdf_text w).2 = trace w ++ evs)
          ∨ is_generative mc = false
            ∧ (get_answer mc question pdf_text w).2
              = (score_chunks (mc_pipeline mc) question (make_chunks pdf_text) w).2
            ∧ make_chunks pdf_text ≠ []) as [(Hheap & Hst & Htrace)|(Hmode & Hw & Hchunks)].
  { destruct (is_generative mc) eqn:Hmode.
    - left.
      destruct (get_answer_generative mc question pdf_text w Hmode) as (model & _ & ->).
      destruct (generative_answer_effects model (mc_tokenizer mc) question pdf_text w)
        as (evs & _ & Heff).
      rewrite (Heff w). cbn [snd heap scorer_st trace]. repeat split. by eexists.
    - rewrite get_answer_extractive by done.
      destruct (decide (make_chunks pdf_text = [])) as [Hnil|Hchunks].
      + left. rewrite extractive_answer_empty by done. cbn [snd].
        repeat split. exists []. by rewrite app_nil_r.
      + right. rewrite extractive_answer_scored by done. done. }
  - rewrite Hheap, Hst. repeat split; auto.
  - rewrite Hw, score_chunks_spec. cbn [snd heap trace scorer_st].
    split; [|split; [|split; [|split]]].
    + intros r. apply run_heap_value.
    + intros r.
      destruct (run_heap_lookup (mc_pipeline mc) question (make_chunks pdf_text)
                  (scorer_st w) (heap w) r)
        as [[Hsame _]|(k & chunk & out & Hk & _ & _ & Hset)]; [by left|].
      right. exists chunk. split; [|done]. by eapply list_elem_of_lookup_2.
    + intros r. rewrite <- !(fmap_is_Some cand_value). by rewrite run_heap_value.
    + by eexists.
    + by rewrite Hmode.
Qed.
